(** * A shallow embedding of the Brainfuck interpreter (package [brainfuck])

    The development follows [brainfuck.go]: the package-level variables
    [tape], [pointer], [index] and [loopStack] become the fields of a
    [state] record that every operation threads explicitly; a Go run-time
    panic becomes the [Panic] result; the unbounded [for] loops take a
    fuel argument and answer [OutOfFuel] when it is used up.

    Go's [int] is modelled by [Z]: every integer the interpreter computes
    stays far inside the 64-bit range (indices into the source or the tape,
    plus or minus a parsed [int]), so the wrap-around never comes into play.
    A tape cell is a Go [byte], modelled by a [Z] in [[0, 256)] with the
    wrap-around of [++] and [--] written out.  A source text is the list of
    its bytes. *)

From Stdlib Require Import ZArith Ascii String Lia.
From stdpp Require Import base tactics option list pretty.

Local Open Scope Z_scope.

(** ** Results of partial computations *)

Inductive panic : Type :=
| CodeIndexOutOfRange   (* code[index] with index outside the source *)
| TapeIndexOutOfRange   (* tape[i] with i outside the tape *)
| SliceIndexOutOfRange  (* inst[k] outside the submatch slice *)
| EmptyStackPop.        (* panic(err) in CloseLoop *)

Inductive result (A : Type) : Type :=
| Ok (a : A)
| Panic (p : panic)
| OutOfFuel.

Arguments Ok {A} a.
Arguments Panic {A} p.
Arguments OutOfFuel {A}.

Definition bind {A B : Type} (r : result A) (k : A -> result B) : result B :=
  match r with
  | Ok a => k a
  | Panic p => Panic p
  | OutOfFuel => OutOfFuel
  end.

Notation "'do' x <- r ; k" := (bind r (fun x => k))
  (at level 10, x name, r at level 100, k at level 200).

(** Indexing a Go slice or string: [l[i]] panics unless [0 <= i < len(l)]. *)
Definition at_index {A : Type} (l : list A) (i : Z) : option A :=
  if i <? 0 then None else l !! Z.to_nat i.

Definition len {A : Type} (l : list A) : Z := Z.of_nat (length l).

(** ** The stack package

    [github.com/TalkTakesTime/stack] is an external dependency; it is used
    through [Push], [Pop] (which reports an error on the empty stack),
    [Length] and [IsEmpty], and is modelled as a list with its top first.
    The interpreter only ever stores [int]s in it. *)
Module Stack.
Definition Stack : Type := list Z.
Definition empty : Stack := [].
Definition Push (x : Z) (s : Stack) : Stack := x :: s.
Definition Pop (s : Stack) : option (Z * Stack) :=
  match s with
  | [] => None
  | x :: s' => Some (x, s')
  end.
Definition Length (s : Stack) : Z := len s.
Definition IsEmpty (s : Stack) : bool :=
  match s with
  | [] => true
  | _ :: _ => false
  end.
End Stack.

(** ** The engine state *)

Definition TapeLength : Z := 30000.

(** What the interpreter writes to standard output, in order. *)
Inductive event : Type :=
| PrintChar (b : Z)          (* fmt.Printf("%c", b) *)
| PrintLine (s : string).    (* fmt.Println(s) *)

(** [input] is the environment's side of [fmt.Scanf("%c", ...)]: the bytes
    that the successive successful scans deliver.  When it is exhausted the
    scan fails, its error is dropped, and the cell keeps its value. *)
Record state : Type := mkState {
  tape : list Z;
  pointer : Z;
  index : Z;
  loopStack : Stack.Stack;
  input : list Z;
  output : list event
}.

Definition set_tape (t : list Z) (st : state) : state :=
  mkState t (pointer st) (index st) (loopStack st) (input st) (output st).
Definition set_pointer (p : Z) (st : state) : state :=
  mkState (tape st) p (index st) (loopStack st) (input st) (output st).
Definition set_index (i : Z) (st : state) : state :=
  mkState (tape st) (pointer st) i (loopStack st) (input st) (output st).
Definition set_loopStack (s : Stack.Stack) (st : state) : state :=
  mkState (tape st) (pointer st) (index st) s (input st) (output st).
Definition set_input (i : list Z) (st : state) : state :=
  mkState (tape st) (pointer st) (index st) (loopStack st) i (output st).
Definition emit (e : event) (st : state) : state :=
  mkState (tape st) (pointer st) (index st) (loopStack st) (input st)
          (output st ++ [e]).

(** The state of a freshly loaded package. *)
Definition initial_state (inp : list Z) : state :=
  mkState (replicate (Z.to_nat TapeLength) 0) 0 0 Stack.empty inp [].

(** [tape[pointer]] as an r-value. *)
Definition cell (st : state) : result Z :=
  match at_index (tape st) (pointer st) with
  | Some v => Ok v
  | None => Panic TapeIndexOutOfRange
  end.

(** [tape[pointer] = v]. *)
Definition store (v : Z) (st : state) : result state :=
  match at_index (tape st) (pointer st) with
  | Some _ => Ok (set_tape (<[Z.to_nat (pointer st) := v]> (tape st)) st)
  | None => Panic TapeIndexOutOfRange
  end.

(** ** The eight instructions *)

Definition MoveLeft (st : state) : state :=
  if pointer st =? 0 then set_pointer (TapeLength - 1) st
  else set_pointer (pointer st - 1) st.

Definition MoveRight (st : state) : state :=
  if pointer st =? TapeLength - 1 then set_pointer 0 st
  else set_pointer (pointer st + 1) st.

Definition Increment (st : state) : result state :=
  do v <- cell st ; store ((v + 1) mod 256) st.

Definition Decrement (st : state) : result state :=
  do v <- cell st ; store ((v - 1) mod 256) st.

Definition Output (st : state) : result state :=
  do v <- cell st ; Ok (emit (PrintChar v) st).

Definition Input (st : state) : result state :=
  do _ <- cell st ;
  match input st with
  | [] => Ok st
  | b :: rest => store b (set_input rest st)
  end.

Definition OpenLoop (pos : Z) (st : state) : result (bool * state) :=
  do v <- cell st ;
  if v =? 0 then Ok (true, st)
  else Ok (false, set_loopStack (Stack.Push pos (loopStack st)) st).

Definition CloseLoop (st : state) : result (Z * state) :=
  match Stack.Pop (loopStack st) with
  | None => Panic EmptyStackPop
  | Some (p, s) =>
      let st := set_loopStack s st in
      do v <- cell st ;
      if v =? 0 then Ok (-1, st) else Ok (p, st)
  end.

(** [for i := range tape { tape[i] = 0 }] overwrites the cells one by one. *)
Definition ClearTape (st : state) : state :=
  set_pointer 0 (set_tape (map (fun _ => 0) (tape st)) st).

(** ** Validation *)

Inductive error : Type :=
| errorsNew (msg : string).

Definition UnmatchedClose : error :=
  errorsNew "Syntax error: closing brace without matched opening brace".
Definition UnmatchedOpen : error :=
  errorsNew "Syntax error: opening brace without matching closing brace".

(** A source text is a Go [string]; [code] holds its bytes.  [Validate]
    ranges over the runes of the text and [Run] over its bytes: both see the
    same brackets at the same offsets, because the bytes of ['['] and [']']
    are ASCII and occur in a UTF-8 text (well-formed or not) only as
    one-byte runes.  The loop below therefore tests every byte. *)
Abbreviation code := (list ascii).

Fixpoint Validate_loop (testStack : Stack.Stack) (i : Z) (rest : code)
  : option error :=
  match rest with
  | [] =>
      if negb (Stack.Length testStack =? 0) then Some UnmatchedOpen else None
  | c :: rest' =>
      if (c =? "[")%char then
        Validate_loop (Stack.Push i testStack) (i + 1) rest'
      else if (c =? "]")%char then
        match Stack.Pop testStack with
        | None => Some UnmatchedClose
        | Some (_, s) => Validate_loop s (i + 1) rest'
        end
      else Validate_loop testStack (i + 1) rest'
  end.

Definition Validate (src : code) : option error :=
  Validate_loop Stack.empty 0 src.

(** ** Special run-time instructions *)

Definition is_lower (c : ascii) : bool :=
  ((97 <=? N_of_ascii c) && (N_of_ascii c <=? 122))%N.
Definition is_digit (c : ascii) : bool :=
  ((48 <=? N_of_ascii c) && (N_of_ascii c <=? 57))%N.

Fixpoint take_while (p : ascii -> bool) (l : code) : code :=
  match l with
  | c :: l' => if p c then c :: take_while p l' else []
  | [] => []
  end.

Fixpoint drop_while (p : ascii -> bool) (l : code) : code :=
  match l with
  | c :: l' => if p c then drop_while p l' else l
  | [] => []
  end.

(** [SpecialInstructionRegex.FindStringSubmatch(s)] for the pattern
    [^!! ([a-z]+)([0-9]+)?]: the whole match and the two groups, the second
    being the empty string when it takes no part in the match; [None] is
    the [nil] slice of a failed match.  Both repetitions are greedy and
    their classes are disjoint, so each takes the longest run. *)
Definition SpecialInstructionRegex (s : code) : option (list string) :=
  match s with
  | c1 :: c2 :: c3 :: r =>
      if ((c1 =? "!") && (c2 =? "!") && (c3 =? " "))%char then
        match take_while is_lower r with
        | [] => None
        | name =>
            let digits := take_while is_digit (drop_while is_lower r) in
            Some [string_of_list_ascii (c1 :: c2 :: c3 :: name ++ digits);
                  string_of_list_ascii name;
                  string_of_list_ascii digits]
        end
      else None
  | _ => None
  end.

Fixpoint digits_value (acc : Z) (l : code) : option Z :=
  match l with
  | [] => Some acc
  | c :: l' =>
      if is_digit c
      then digits_value (10 * acc + (Z.of_N (N_of_ascii c) - 48)) l'
      else None
  end.

(** [strconv.Atoi] on a 64-bit platform: an optional sign, then at least
    one decimal digit and nothing else; a value outside [int] is an error. *)
Definition Atoi (s : string) : option Z :=
  let parse (neg : bool) (ds : code) : option Z :=
    match ds with
    | [] => None
    | _ =>
        match digits_value 0 ds with
        | None => None
        | Some n =>
            let v := if neg then - n else n in
            if (- 2 ^ 63 <=? v) && (v <=? 2 ^ 63 - 1) then Some v else None
        end
    end in
  match list_ascii_of_string s with
  | c :: ds =>
      if (c =? "-")%char then parse true ds
      else if (c =? "+")%char then parse false ds
      else parse false (c :: ds)
  | [] => None
  end.

Definition tab : string := String (ascii_of_nat 9) EmptyString.
Definition newline : string := String (ascii_of_nat 10) EmptyString.

(** The body of the [for i := start; i != end+1; i++] loop of
    [FormatCells]; [stop] is [end+1].  The result lists, in the order of the
    iterations, the index and the cell that each iteration formats. *)
Fixpoint FormatCells_loop (fuel : nat) (t : list Z) (i stop : Z)
  : result (list (Z * Z)) :=
  if i =? stop then Ok []
  else
    match fuel with
    | O => OutOfFuel
    | S fuel' =>
        let i := if i >=? TapeLength then 0 else i in
        match at_index t i with
        | None => Panic TapeIndexOutOfRange
        | Some v =>
            do rest <- FormatCells_loop fuel' t (i + 1) stop ;
            Ok ((i, v) :: rest)
        end
    end.

(** The cells of the window, after the two adjustments of its bounds. *)
Definition FormatCells_cells (fuel : nat) (start end_ : Z) (st : state)
  : result (list (Z * Z)) :=
  let start := if start <? 0 then TapeLength + start - 1 else start in
  let end_ := if end_ >=? TapeLength then end_ - TapeLength else end_ in
  FormatCells_loop fuel (tape st) start (end_ + 1).

Definition FormatCells (fuel : nat) (start end_ : Z) (st : state)
  : result string :=
  do cells <- FormatCells_cells fuel start end_ st ;
  let indicesText :=
    fold_left (fun s c => s ++ tab ++ pretty (fst c))%string cells EmptyString in
  let cellsText :=
    fold_left (fun s c => s ++ pretty (snd c) ++ tab)%string cells
              ("[" ++ tab)%string in
  Ok (indicesText ++ newline ++ cellsText ++ "]")%string.

Definition RunSpecialInstruction (fuel : nat) (inst : list string) (st : state)
  : result state :=
  match inst !! 0%nat with
  | None => Panic SliceIndexOutOfRange
  | Some name =>
      if (name =? "clear")%string then Ok (ClearTape st)
      else if (name =? "print")%string then
        do s <- FormatCells fuel (pointer st - 5) (pointer st + 5) st ;
        Ok (emit (PrintLine s) st)
      else if (name =? "printn")%string then
        match inst !! 1%nat with
        | None => Panic SliceIndexOutOfRange
        | Some arg =>
            match Atoi arg with
            | None => Ok st
            | Some n =>
                do s <- FormatCells fuel (pointer st - n ÷ 2)
                                    (pointer st + n ÷ 2) st ;
                Ok (emit (PrintLine s) st)
            end
        end
      else Ok st
  end.

(** ** The dispatch loop *)

(** The skip loop of the ["["] case: [rest] is [code[idx+1:]], so its head
    is the byte that [index += 1; code[index]] reads, and running out of it
    is the index panic of that read.  The result is the final [index]. *)
Fixpoint skip_loop (skipStack : Stack.Stack) (idx : Z) (rest : code)
  : result Z :=
  match rest with
  | [] => Panic CodeIndexOutOfRange
  | c :: rest' =>
      let idx := idx + 1 in
      if (c =? "[")%char then skip_loop (Stack.Push 1 skipStack) idx rest'
      else if (c =? "]")%char then
        let skipStack :=
          match Stack.Pop skipStack with
          | Some (_, s) => s
          | None => skipStack
          end in
        if Stack.IsEmpty skipStack then Ok idx
        else skip_loop skipStack idx rest'
      else skip_loop skipStack idx rest'
  end.

(** The [switch] of one iteration. *)
Definition dispatch (fuel : nat) (src : code) (st : state) : result state :=
  match at_index src (index st) with
  | None => Panic CodeIndexOutOfRange
  | Some c =>
      if (c =? "<")%char then Ok (MoveLeft st)
      else if (c =? ">")%char then Ok (MoveRight st)
      else if (c =? "-")%char then Decrement st
      else if (c =? "+")%char then Increment st
      else if (c =? ".")%char then Output st
      else if (c =? ",")%char then Input st
      else if (c =? "[")%char then
        let skipStack := Stack.Push 1 Stack.empty in
        do r <- OpenLoop (index st) st ;
        if fst r then
          do i <- skip_loop skipStack (index st)
                            (drop (S (Z.to_nat (index st))) src) ;
          Ok (set_index i (snd r))
        else Ok (snd r)
      else if (c =? "]")%char then
        do r <- CloseLoop st ;
        if negb (fst r =? -1) then Ok (set_index (fst r - 1) (snd r))
        else Ok (snd r)
      else if (c =? "!")%char then
        match SpecialInstructionRegex (drop (Z.to_nat (index st)) src) with
        | Some (_ :: groups) => RunSpecialInstruction fuel groups st
        | _ => Ok st
        end
      else Ok st
  end.

(** One iteration up to and including [index += 1]. *)
Definition step (fuel : nat) (src : code) (st : state) : result state :=
  do st' <- dispatch fuel src st ;
  Ok (set_index (index st' + 1) st').

(** The [for] loop of [Run]: it leaves as soon as [index >= codeLen]. *)
Fixpoint Run_loop (fuel : nat) (src : code) (st : state) : result state :=
  match fuel with
  | O => OutOfFuel
  | S fuel' =>
      do st' <- step fuel' src st ;
      if index st' >=? len src then Ok st' else Run_loop fuel' src st'
  end.

(** The state in which the loop of [Run] starts. *)
Definition Run_start (clearTape : bool) (st : state) : state :=
  set_index 0 (if clearTape then ClearTape st else st).

(** [Run] returns its error (or [nil]) together with the final state. *)
Definition Run (fuel : nat) (src : code) (clearTape : bool) (st : state)
  : result (option error * state) :=
  match Validate src with
  | Some err => Ok (Some err, st)
  | None =>
      do st' <- Run_loop fuel src (Run_start clearTape st) ;
      Ok (None, emit (PrintLine EmptyString) st')
  end.

Definition src_of (s : string) : code := list_ascii_of_string s.

(** ** The command

    [main] of [interpreter/interpreter.go].  [args] is the value of
    [flag.Args()] and [ReadFile] stands for [ioutil.ReadFile], [None] being
    a read error.  The calls [fmt.Printf("...\n", ...)] write what
    [fmt.Println] writes for the same text without its final line break, so
    they are recorded as [PrintLine] events. *)
Definition main (args : list string) (ReadFile : string -> option code)
           (fuel : nat) (st : state) : result state :=
  if 0 <? len args then
    if 1 <? len args then Ok st
    else
      match args !! 0%nat with
      | None => Panic SliceIndexOutOfRange
      | Some filename =>
          match ReadFile filename with
          | None =>
              Ok (emit (PrintLine ("File " ++ filename ++
                                   " could not be used")%string) st)
          | Some program =>
              do r <- Run fuel program false st ;
              match fst r with
              | Some (errorsNew msg) =>
                  Ok (emit (PrintLine
                              ("File " ++ filename ++
                               " does not contain a valid Brainfuck program: "
                               ++ msg)%string) (snd r))
              | None => Ok (snd r)
              end
          end
      end
  else Ok st.

(** * Vocabulary of the statements *)

(** ** Properly nested texts and loops *)

(** The grammar of texts whose brackets are properly nested and matched:
    the empty text, a character that is no bracket followed by such a text,
    or a bracketed such text followed by such a text. *)
Inductive Balanced : code -> Prop :=
| Balanced_nil : Balanced []
| Balanced_other (c : ascii) (l : code) :
    c <> "["%char -> c <> "]"%char -> Balanced l -> Balanced (c :: l)
| Balanced_loop (b l : code) :
    Balanced b -> Balanced l -> Balanced ("["%char :: b ++ "]"%char :: l).

(** The ["["] at offset [p] and the ["]"] at offset [q] are the two ends
    of one loop of [src]. *)
Definition Matched (src : code) (p q : Z) : Prop :=
  exists pre body post,
    src = pre ++ "["%char :: body ++ "]"%char :: post /\
    Balanced body /\
    p = len pre /\
    q = len pre + 1 + len body.

(** ** The loops around a position *)

(** The openers that a left-to-right scan of [l] leaves pending, on top of
    those of [stk]; [i] is the offset of the head of [l]. *)
Fixpoint pending_from (stk : list Z) (i : Z) (l : code) : list Z :=
  match l with
  | [] => stk
  | c :: l' =>
      if (c =? "[")%char then pending_from (i :: stk) (i + 1) l'
      else if (c =? "]")%char then pending_from (tail stk) (i + 1) l'
      else pending_from stk (i + 1) l'
  end.

(** The openers pending in front of offset [i] of [src], innermost first. *)
Definition enclosing (src : code) (i : Z) : list Z :=
  pending_from [] 0 (take (Z.to_nat i) src).

(** The states in which an iteration of the loop of [Run] starts, when the
    loop is entered in [st0]. *)
Inductive Reach (src : code) (st0 : state) : state -> Prop :=
| Reach_start : Reach src st0 st0
| Reach_next (st st' : state) (fuel : nat) :
    Reach src st0 st ->
    step fuel src st = Ok st' ->
    index st' < len src ->
    Reach src st0 st'.

(** Between two iterations the instruction index is inside the source or
    at its end, and the loop stack holds the openers pending in front of
    it, on top of the stack [s0] that the run found. *)
Definition Inv (src : code) (s0 : list Z) (st : state) : Prop :=
  0 <= index st <= len src /\
  loopStack st = enclosing src (index st) ++ s0.

(** The counter of the loop-entry scan, in the words of the description:
    it starts at 1 for the opener under the instruction index, goes up on
    each ["["] and down on each ["]"], and the scan stops on the ["]"] that
    brings it to 0. *)
Fixpoint skip_counter (counter : Z) (idx : Z) (rest : code) : option Z :=
  match rest with
  | [] => None
  | c :: rest' =>
      let idx := idx + 1 in
      if (c =? "[")%char then skip_counter (counter + 1) idx rest'
      else if (c =? "]")%char then
        if counter - 1 =? 0 then Some idx
        else skip_counter (counter - 1) idx rest'
      else skip_counter counter idx rest'
  end.

(** ** Further vocabulary *)

(** The engine as the package keeps it: a tape of [TapeLength] cells and a
    pointer to one of them. *)
Definition wf (st : state) : Prop :=
  len (tape st) = TapeLength /\ 0 <= pointer st < TapeLength.

(** An instruction that may panic, [n] times in a row. *)
Fixpoint repeat_op (n : nat) (op : state -> result state) (st : state)
  : result state :=
  match n with
  | O => Ok st
  | S n' => do st' <- op st ; repeat_op n' op st'
  end.

(** The number of ["["] of a text minus the number of its ["]"]. *)
Fixpoint excess (l : code) : Z :=
  match l with
  | [] => 0
  | c :: l' =>
      (if (c =? "[")%char then 1 else if (c =? "]")%char then -1 else 0)
      + excess l'
  end.

Definition is_bracket (c : ascii) : bool :=
  ((c =? "[") || (c =? "]"))%char.

(** The cells [i], [i+1], ..., [j-1] of a tape, each with its index. *)
Definition cells_between (t : list Z) (i j : Z) : list (Z * Z) :=
  map (fun k => (k, default 0 (at_index t k))) (seqZ i (j - i)).

(** The same engine with other values in the variables [index] and
    [loopStack], and with [P] printed before its output. *)
Definition recontrol (i : Z) (stk : list Z) (P : list event) (st : state)
  : state :=
  mkState (tape st) (pointer st) i stk (input st) (P ++ output st).

(** An engine that runs [b] at offset [index], seen as running [a ++ b]
    at the same place of [b]: the index and the openers of the loops of
    [b] it is in are moved by the length of [a]. *)
Definition relocate (a b : code) (stk : list Z) (P : list event) (st : state)
  : state :=
  recontrol (len a + index st)
            (map (Z.add (len a)) (enclosing b (index st)) ++ stk) P st.

Definition lift (G : state -> state) (r : result state) : result state :=
  match r with
  | Ok st => Ok (G st)
  | Panic p => Panic p
  | OutOfFuel => OutOfFuel
  end.

(** The package as the run of ["+[!! printn60000]"] leaves it when it is
    started on the initial state: the loop has been entered, so its opener
    is on the loop stack, and the special instruction at offset 2 panics.
    A caller that recovers from that panic goes on with these globals. *)
Definition after_recovered_panic : state :=
  mkState (<[0%nat := 1]> (replicate (Z.to_nat TapeLength) 0)) 0 2 [1] [] [].

(** * Properties *)

(** ** Basic facts about indices *)

Lemma len_nil {A : Type} : len (@nil A) = 0.
Proof. reflexivity. Qed.

Lemma len_cons {A : Type} (x : A) (l : list A) : len (x :: l) = 1 + len l.
Proof. unfold len. simpl length. lia. Qed.

Lemma len_app {A : Type} (l1 l2 : list A) : len (l1 ++ l2) = len l1 + len l2.
Proof. unfold len. rewrite length_app. lia. Qed.

Lemma len_nonneg {A : Type} (l : list A) : 0 <= len l.
Proof. unfold len. lia. Qed.

Ltac len_simpl :=
  repeat first [ rewrite len_app | rewrite len_cons | rewrite len_nil ].

Ltac len_simpl_in H :=
  repeat first [ rewrite len_app in H | rewrite len_cons in H
               | rewrite len_nil in H ].

Lemma at_index_Some {A : Type} (l : list A) (i : Z) (x : A) :
  at_index l i = Some x <->
  exists pre post, l = pre ++ x :: post /\ i = len pre.
Proof.
  unfold at_index, len. split.
  - destruct (Z.ltb_spec i 0) as [Hneg | Hpos]; [discriminate |].
    intros Hl. exists (take (Z.to_nat i) l), (drop (S (Z.to_nat i)) l).
    split.
    + symmetry. apply take_drop_middle. exact Hl.
    + rewrite length_take. apply lookup_lt_Some in Hl. lia.
  - intros (pre & post & -> & ->).
    destruct (Z.ltb_spec (Z.of_nat (length pre)) 0) as [Hneg | Hpos]; [lia |].
    rewrite Nat2Z.id. apply list_lookup_middle. reflexivity.
Qed.

Lemma at_index_range {A : Type} (l : list A) (i : Z) (x : A) :
  at_index l i = Some x -> 0 <= i < len l.
Proof.
  intros (pre & post & -> & ->)%at_index_Some. len_simpl.
  pose proof (len_nonneg pre). pose proof (len_nonneg post). lia.
Qed.

Lemma at_index_None {A : Type} (l : list A) (i : Z) :
  at_index l i = None <-> i < 0 \/ len l <= i.
Proof.
  unfold at_index, len.
  destruct (Z.ltb_spec i 0) as [Hneg | Hpos].
  - split; [auto | reflexivity].
  - rewrite lookup_ge_None. lia.
Qed.

Lemma at_index_middle {A : Type} (pre post : list A) (x : A) :
  at_index (pre ++ x :: post) (len pre) = Some x.
Proof. apply at_index_Some. eauto. Qed.

Lemma drop_len_app {A : Type} (pre post : list A) :
  drop (Z.to_nat (len pre)) (pre ++ post) = post.
Proof. unfold len. rewrite Nat2Z.id. apply drop_app_length. Qed.

Lemma drop_S_len_app {A : Type} (pre post : list A) (x : A) :
  drop (S (Z.to_nat (len pre))) (pre ++ x :: post) = post.
Proof.
  unfold len. rewrite Nat2Z.id.
  replace (pre ++ x :: post) with ((pre ++ [x]) ++ post)
    by (rewrite <- app_assoc; reflexivity).
  replace (S (length pre)) with (length (pre ++ [x]))
    by (rewrite length_app; simpl; lia).
  apply drop_app_length.
Qed.

(** Equations between concatenations, up to associativity. *)
Ltac list_assoc :=
  repeat (progress (rewrite <- ?app_assoc; cbn [app])); try reflexivity.

(** Case analysis on the bracket tests of the source. *)
Ltac case_char c s :=
  let E := fresh "E" in
  destruct (Ascii.eqb_spec c s) as [E | E]; [try subst c |].

(** ** Moving the pointer *)

(** C7: from a position [p] inside the tape, [MoveLeft] yields
    [TapeLength-1] when [p] is 0 and [p-1] otherwise, [MoveRight] yields 0
    when [p] is [TapeLength-1] and [p+1] otherwise; both results are again
    inside the tape, and a move changes nothing but the pointer. *)
Theorem pointer_moves_are_circular (st : state) :
  0 <= pointer st < TapeLength ->
  (pointer st = 0 -> pointer (MoveLeft st) = TapeLength - 1) /\
  (pointer st <> 0 -> pointer (MoveLeft st) = pointer st - 1) /\
  (pointer st = TapeLength - 1 -> pointer (MoveRight st) = 0) /\
  (pointer st <> TapeLength - 1 -> pointer (MoveRight st) = pointer st + 1) /\
  pointer (MoveLeft st) = (pointer st - 1) mod TapeLength /\
  pointer (MoveRight st) = (pointer st + 1) mod TapeLength /\
  0 <= pointer (MoveLeft st) < TapeLength /\
  0 <= pointer (MoveRight st) < TapeLength /\
  MoveLeft st = set_pointer (pointer (MoveLeft st)) st /\
  MoveRight st = set_pointer (pointer (MoveRight st)) st.
Proof.
  intros Hp. unfold MoveLeft, MoveRight.
  assert (HT : TapeLength = 30000) by reflexivity.
  destruct (Z.eqb_spec (pointer st) 0) as [H0 | H0];
    destruct (Z.eqb_spec (pointer st) (TapeLength - 1)) as [H1 | H1];
    cbn [pointer set_pointer]; rewrite ?H0, ?H1;
    repeat split; intros; try reflexivity; try lia;
    try (rewrite HT in *; rewrite ?H0; reflexivity);
    try (symmetry; rewrite HT in *;
         first [ apply Z.mod_small; lia
               | replace (29999 + 1) with (1 * 30000) by lia;
                 apply Z.mod_mul; lia ]).
Qed.

Lemma pointer_moves_are_circular_witness :
  pointer (MoveLeft (initial_state [])) = TapeLength - 1 /\
  pointer (MoveRight (set_pointer 29999 (initial_state []))) = 0.
Proof.
  assert (H0 : 0 <= 0 < TapeLength) by (unfold TapeLength; lia).
  assert (H1 : 0 <= 29999 < TapeLength) by (unfold TapeLength; lia).
  split.
  - exact (proj1 (pointer_moves_are_circular (initial_state []) H0) eq_refl).
  - exact (proj1 (proj2 (proj2 (pointer_moves_are_circular
             (set_pointer 29999 (initial_state [])) H1))) eq_refl).
Defined.

(** ** Cell arithmetic *)

Lemma at_index_insert {A : Type} (l : list A) (i : Z) (x y : A) :
  at_index l i = Some x ->
  at_index (<[Z.to_nat i := y]> l) i = Some y.
Proof.
  unfold at_index. destruct (Z.ltb_spec i 0) as [Hneg | Hpos]; [discriminate |].
  intros Hl. apply list_lookup_insert_eq. apply lookup_lt_Some in Hl. exact Hl.
Qed.

Lemma at_index_insert_ne {A : Type} (l : list A) (i j : Z) (y : A) :
  0 <= i -> i <> j ->
  at_index (<[Z.to_nat i := y]> l) j = at_index l j.
Proof.
  unfold at_index. intros Hi Hne.
  destruct (Z.ltb_spec j 0) as [Hneg | Hpos]; [reflexivity |].
  apply list_lookup_insert_ne. lia.
Qed.

(** C8: on a cell holding [v] in [[0, 255]], [Increment] stores
    [(v+1) mod 256] and [Decrement] stores [(v-1) mod 256] under the
    pointer; 255 is incremented to 0 and 0 is decremented to 255; neither
    operation panics, and no other cell nor any other part of the state
    changes. *)
Theorem cell_arithmetic_wraps (st : state) (v : Z) :
  at_index (tape st) (pointer st) = Some v ->
  0 <= v <= 255 ->
  (exists st',
      Increment st = Ok st' /\
      at_index (tape st') (pointer st') = Some ((v + 1) mod 256) /\
      (v = 255 -> at_index (tape st') (pointer st') = Some 0) /\
      (forall j, j <> pointer st ->
                 at_index (tape st') j = at_index (tape st) j) /\
      st' = set_tape (tape st') st) /\
  (exists st',
      Decrement st = Ok st' /\
      at_index (tape st') (pointer st') = Some ((v - 1) mod 256) /\
      (v = 0 -> at_index (tape st') (pointer st') = Some 255) /\
      (forall j, j <> pointer st ->
                 at_index (tape st') j = at_index (tape st) j) /\
      st' = set_tape (tape st') st).
Proof.
  intros Hv Hrange.
  pose proof (at_index_range _ _ _ Hv) as Hp.
  unfold Increment, Decrement, cell, store. rewrite Hv. cbn [bind].
  split; eexists; (split; [reflexivity |]); cbn [tape pointer set_tape];
    (split; [eapply at_index_insert; exact Hv |]);
    (split; [intros ->; eapply at_index_insert; exact Hv |]);
    (split; [intros j Hj; apply at_index_insert_ne; lia | reflexivity]).
Qed.

Lemma cell_arithmetic_wraps_witness :
  (exists st', Increment (mkState [255] 0 0 [] [] []) = Ok st' /\
               at_index (tape st') (pointer st') = Some 0) /\
  (exists st', Decrement (mkState [0] 0 0 [] [] []) = Ok st' /\
               at_index (tape st') (pointer st') = Some 255).
Proof.
  assert (H255 : 0 <= 255 <= 255) by lia.
  assert (H0 : 0 <= 0 <= 255) by lia.
  destruct (cell_arithmetic_wraps (mkState [255] 0 0 [] [] []) 255 eq_refl H255)
    as [(s1 & E1 & _ & Z1 & _) _].
  destruct (cell_arithmetic_wraps (mkState [0] 0 0 [] [] []) 0 eq_refl H0)
    as [_ (s2 & E2 & _ & Z2 & _)].
  split; [exists s1 | exists s2]; split; auto.
Defined.

(** ** Clearing the tape *)

Lemma ClearTape_cells (st : state) (i : Z) :
  0 <= i < len (tape st) -> at_index (tape (ClearTape st)) i = Some 0.
Proof.
  intros Hi. unfold ClearTape, at_index. cbn [tape set_tape set_pointer].
  destruct (Z.ltb_spec i 0) as [Hneg | Hpos]; [lia |].
  rewrite list_lookup_fmap.
  destruct (lookup_lt_is_Some_2 (tape st) (Z.to_nat i)) as [x Hx];
    [unfold len in Hi; lia |].
  rewrite Hx. reflexivity.
Qed.

Lemma SpecialInstructionRegex_clear (post : code) :
  match post with c :: _ => is_lower c = false | [] => True end ->
  exists whole arg,
    SpecialInstructionRegex (src_of "!! clear" ++ post) =
    Some [whole; "clear"%string; arg].
Proof.
  intros Hpost.
  destruct post as [| c post]; [do 2 eexists; vm_compute; reflexivity |].
  unfold SpecialInstructionRegex.
  cbn [src_of list_ascii_of_string app Ascii.eqb Bool.eqb andb
       take_while drop_while].
  repeat match goal with
         | |- context [is_lower (Ascii ?a ?b ?c ?d ?e ?f ?g ?h)] =>
             let v := eval vm_compute in (is_lower (Ascii a b c d e f g h)) in
             change (is_lower (Ascii a b c d e f g h)) with v
         end.
  cbn [take_while drop_while]. rewrite Hpost.
  do 2 eexists. reflexivity.
Qed.

(** C9: whatever the state, clearing (by [ClearTape], as the [clear]
    special instruction met by the dispatch loop, or by the flag of [Run])
    sets each of the [TapeLength] cells and the pointer to 0, and leaves
    the instruction index, the loop stack, the pending input and the
    output as they were. *)
Theorem clear_resets_tape_and_pointer (st : state) :
  len (tape st) = TapeLength ->
  len (tape (ClearTape st)) = TapeLength /\
  (forall i, 0 <= i < TapeLength -> at_index (tape (ClearTape st)) i = Some 0) /\
  pointer (ClearTape st) = 0 /\
  index (ClearTape st) = index st /\
  loopStack (ClearTape st) = loopStack st /\
  input (ClearTape st) = input st /\
  output (ClearTape st) = output st /\
  (forall fuel arg,
      RunSpecialInstruction fuel ["clear"%string; arg] st = Ok (ClearTape st)) /\
  (forall fuel pre post,
      match post with c :: _ => is_lower c = false | [] => True end ->
      index st = len pre ->
      dispatch fuel (pre ++ src_of "!! clear" ++ post) st = Ok (ClearTape st)) /\
  (forall fuel src,
      Validate src = None ->
      Run fuel src true st = Run fuel src false (ClearTape st)).
Proof.
  intros Hlen. repeat split; try reflexivity.
  - unfold ClearTape, len. cbn [tape set_tape set_pointer].
    rewrite length_map. exact Hlen.
  - intros i Hi. apply ClearTape_cells. lia.
  - intros fuel pre post Hpost Hidx. unfold dispatch. rewrite Hidx.
    change (src_of "!! clear" ++ post)
      with ("!"%char :: (src_of "! clear" ++ post)).
    rewrite at_index_middle. cbn [Ascii.eqb Bool.eqb].
    rewrite drop_len_app.
    change ("!"%char :: (src_of "! clear" ++ post))
      with (src_of "!! clear" ++ post).
    destruct (SpecialInstructionRegex_clear post Hpost) as (whole & arg & ->).
    reflexivity.
  - intros fuel src Hval. unfold Run. rewrite Hval. reflexivity.
Qed.

Lemma clear_resets_tape_and_pointer_witness :
  at_index (tape (ClearTape (set_pointer 7 (initial_state [])))) 29999 = Some 0 /\
  pointer (ClearTape (set_pointer 7 (initial_state []))) = 0.
Proof.
  assert (H : len (tape (set_pointer 7 (initial_state []))) = TapeLength)
    by (vm_compute; reflexivity).
  destruct (clear_resets_tape_and_pointer _ H) as (_ & Hcells & Hptr & _).
  split; [apply Hcells; unfold TapeLength; lia | exact Hptr].
Defined.

(** ** A first run *)

(** On a fresh tape the program [+++.] prints the character of code 3,
    then the closing line break of [Run]. *)
Example Run_prints_three :
  match Run 4 (src_of "+++.") false (initial_state []) with
  | Ok (None, st') =>
      output st' = [PrintChar 3; PrintLine EmptyString] /\
      at_index (tape st') 0 = Some 3 /\
      index st' = 4
  | _ => False
  end.
Proof. vm_compute. repeat split; reflexivity. Qed.

(** ** Rejected sources *)

(** C2: when [Validate] rejects a source, [Run] returns that same error
    whatever the flag, and the state it returns is the state it was given:
    tape, pointer, instruction index, loop stack, pending input and output
    are untouched.  The answer needs no fuel, the dispatch loop not being
    entered. *)
Theorem Run_propagates_validation_error (src : code) (err : error) :
  Validate src = Some err ->
  forall (fuel : nat) (clearTape : bool) (st : state),
    Run fuel src clearTape st = Ok (Some err, st).
Proof.
  intros Hval fuel clearTape st. unfold Run. rewrite Hval. reflexivity.
Qed.

Lemma Run_propagates_validation_error_witness :
  Run 0 (src_of "+.]") true (mkState [7] 0 3 [4] [] []) =
  Ok (Some UnmatchedClose, mkState [7] 0 3 [4] [] []).
Proof.
  apply (Run_propagates_validation_error (src_of "+.]") UnmatchedClose).
  vm_compute. reflexivity.
Defined.

(** ** The empty source *)

(** C3: the empty source passes [Validate], yet [Run] does not return on
    it: the loop reads [code[0]] before it compares [index] with the length,
    and that read is out of range. *)
Theorem Run_empty_source_panics (fuel : nat) (clearTape : bool) (st : state) :
  Validate [] = None /\
  Run (S fuel) [] clearTape st = Panic CodeIndexOutOfRange.
Proof. split; reflexivity. Qed.

(** ** The print window *)

(** C10: with the pointer on cell 0, the window of [!! print], asked for as
    [FormatCells(pointer-5, pointer+5)], starts at cell 29994, that is at
    [TapeLength + start - 1], and holds twelve cells: six before the
    pointer and five after it. *)
Theorem FormatCells_window_at_origin (fuel : nat) :
  let st := initial_state [] in
  FormatCells_cells (13 + fuel) (pointer st - 5) (pointer st + 5) st =
  Ok [(29994, 0); (29995, 0); (29996, 0); (29997, 0); (29998, 0); (29999, 0);
      (0, 0); (1, 0); (2, 0); (3, 0); (4, 0); (5, 0)].
Proof. cbv zeta. vm_compute. reflexivity. Qed.

(** By contrast a window that only runs over the end of the tape holds the
    eleven cells around the pointer. *)
Example FormatCells_window_at_end :
  let st := set_pointer 29999 (initial_state []) in
  FormatCells_cells 12 (pointer st - 5) (pointer st + 5) st =
  Ok [(29994, 0); (29995, 0); (29996, 0); (29997, 0); (29998, 0); (29999, 0);
      (0, 0); (1, 0); (2, 0); (3, 0); (4, 0)].
Proof. cbv zeta. vm_compute. reflexivity. Qed.

(** ** Properly nested bracket sequences *)

#[local] Hint Constructors Balanced : core.


Lemma Balanced_app (a b : code) :
  Balanced a -> Balanced b -> Balanced (a ++ b).
Proof.
  intros Ha Hb. induction Ha as [| c l Hc1 Hc2 Hl IH | x l Hx IHx Hl IHl].
  - exact Hb.
  - cbn. apply Balanced_other; assumption.
  - cbn. rewrite <- app_assoc. cbn. apply Balanced_loop; assumption.
Qed.

Lemma Validate_loop_Balanced (b : code) :
  Balanced b ->
  forall stk i rest,
    Validate_loop stk i (b ++ rest) = Validate_loop stk (i + len b) rest.
Proof.
  induction 1 as [| c l Hc1 Hc2 Hl IH | x l Hx IHx Hl IHl]; intros stk i rest.
  - len_simpl. rewrite Z.add_0_r. reflexivity.
  - cbn [app Validate_loop].
    case_char c "["%char; [congruence |].
    case_char c "]"%char; [congruence |].
    rewrite IH. len_simpl. f_equal. lia.
  - cbn [app Validate_loop Ascii.eqb Bool.eqb]. rewrite <- app_assoc.
    rewrite IHx. cbn [app Validate_loop Ascii.eqb Bool.eqb].
    unfold Stack.Push, Stack.Pop. rewrite IHl. len_simpl. f_equal. lia.
Qed.

Lemma Validate_loop_end_pending (x : Z) (stk : Stack.Stack) (k : Z) :
  Validate_loop (x :: stk) k [] = Some UnmatchedOpen.
Proof.
  cbn [Validate_loop]. unfold Stack.Length.
  destruct (Z.eqb_spec (len (x :: stk)) 0) as [H0 | H0]; [| reflexivity].
  rewrite len_cons in H0. pose proof (len_nonneg stk). lia.
Qed.

(** A scan that starts with a pending opener and does not end on
    [UnmatchedOpen] meets the closer of that opener. *)
Lemma Validate_loop_closes (n : nat) :
  forall rest x stk k res,
    (length rest <= n)%nat ->
    Validate_loop (x :: stk) k rest = res ->
    res <> Some UnmatchedOpen ->
    exists body post,
      rest = body ++ "]"%char :: post /\
      Balanced body /\
      Validate_loop stk (k + len body + 1) post = res.
Proof.
  induction n as [| n IH]; intros rest x stk k res Hn Hres Hne.
  - destruct rest; [| cbn in Hn; lia].
    rewrite Validate_loop_end_pending in Hres. congruence.
  - destruct rest as [| c rest];
      [rewrite Validate_loop_end_pending in Hres; congruence |].
    cbn [Validate_loop] in Hres. cbn [length] in Hn.
    case_char c "["%char; [| case_char c "]"%char].
    + unfold Stack.Push in Hres.
      destruct (IH rest k (x :: stk) (k + 1) res ltac:(lia) Hres Hne)
        as (b1 & p1 & -> & Hb1 & Hres1).
      rewrite length_app in Hn. cbn [length] in Hn.
      destruct (IH p1 x stk _ res ltac:(lia) Hres1 Hne)
        as (b2 & p2 & -> & Hb2 & Hres2).
      exists ("["%char :: b1 ++ "]"%char :: b2), p2. split; [| split].
      * cbn. rewrite <- app_assoc. reflexivity.
      * apply Balanced_loop; assumption.
      * rewrite <- Hres2. f_equal. len_simpl. lia.
    + exists [], rest. split; [reflexivity | split; [constructor |]].
      cbn [Stack.Pop] in Hres. rewrite <- Hres. f_equal. len_simpl. lia.
    + destruct (IH rest x stk (k + 1) res ltac:(lia) Hres Hne)
        as (b & p & -> & Hb & Hres1).
      exists (c :: b), p. split; [reflexivity | split].
      * apply Balanced_other; assumption.
      * rewrite <- Hres1. f_equal. len_simpl. lia.
Qed.

Lemma Validate_loop_accepts (n : nat) :
  forall rest k,
    (length rest <= n)%nat ->
    Validate_loop [] k rest = None -> Balanced rest.
Proof.
  induction n as [| n IH]; intros rest k Hn Hres.
  - destruct rest; [constructor | cbn in Hn; lia].
  - destruct rest as [| c rest]; [constructor |].
    cbn [Validate_loop] in Hres. cbn [length] in Hn.
    case_char c "["%char; [| case_char c "]"%char].
    + unfold Stack.Push in Hres.
      destruct (Validate_loop_closes _ rest k [] (k + 1) None (le_n _) Hres
                  ltac:(discriminate)) as (b & p & -> & Hb & Hp).
      rewrite length_app in Hn. cbn [length] in Hn.
      apply Balanced_loop; [exact Hb |].
      apply (IH p _ ltac:(lia) Hp).
    + cbn in Hres. discriminate.
    + apply Balanced_other; [assumption .. |].
      apply (IH rest (k + 1) ltac:(lia) Hres).
Qed.

(** The first closer met with no opener pending ends the scan. *)
Lemma Validate_loop_rejects_close (n : nat) :
  forall rest k,
    (length rest <= n)%nat ->
    Validate_loop [] k rest = Some UnmatchedClose ->
    exists p q, rest = p ++ "]"%char :: q /\ Balanced p.
Proof.
  induction n as [| n IH]; intros rest k Hn Hres.
  - destruct rest; [cbn in Hres; discriminate | cbn in Hn; lia].
  - destruct rest as [| c rest]; [cbn in Hres; discriminate |].
    cbn [Validate_loop] in Hres. cbn [length] in Hn.
    case_char c "["%char; [| case_char c "]"%char].
    + unfold Stack.Push in Hres.
      destruct (Validate_loop_closes _ rest k [] (k + 1) _ (le_n _) Hres
                  ltac:(discriminate)) as (b & p & -> & Hb & Hp).
      rewrite length_app in Hn. cbn [length] in Hn.
      destruct (IH p _ ltac:(lia) Hp) as (p' & q' & -> & Hp').
      exists ("["%char :: b ++ "]"%char :: p'), q'. split.
      * cbn. rewrite <- app_assoc. reflexivity.
      * apply Balanced_loop; assumption.
    + exists [], rest. split; [reflexivity | constructor].
    + destruct (IH rest (k + 1) ltac:(lia) Hres) as (p' & q' & -> & Hp').
      exists (c :: p'), q'. split; [reflexivity |].
      apply Balanced_other; assumption.
Qed.

Lemma Validate_outcomes (stk : Stack.Stack) (i : Z) (rest : code) :
  Validate_loop stk i rest = None \/
  Validate_loop stk i rest = Some UnmatchedClose \/
  Validate_loop stk i rest = Some UnmatchedOpen.
Proof.
  revert stk i. induction rest as [| c rest IH]; intros stk i.
  - cbn. destruct (negb _); auto.
  - cbn [Validate_loop].
    case_char c "["%char; [apply IH |].
    case_char c "]"%char; [| apply IH].
    destruct stk as [| x stk]; cbn [Stack.Pop]; [auto | apply IH].
Qed.

(** C1: [Validate] accepts a source exactly when its brackets are properly
    nested and matched; it answers [UnmatchedClose] exactly when some ["]"]
    comes after a properly nested text, that is with no opener pending, and
    then whatever follows that ["]"] plays no part; it answers
    [UnmatchedOpen] exactly when no such ["]"] exists and the source is
    still not properly nested, that is when openers are left pending at the
    end of the scan. *)
Theorem Validate_accepts_iff_balanced (src : code) :
  (Validate src = None <-> Balanced src) /\
  (Validate src = Some UnmatchedClose <->
   exists p q, src = p ++ "]"%char :: q /\ Balanced p) /\
  (forall p q q', Balanced p ->
     Validate (p ++ "]"%char :: q) = Some UnmatchedClose /\
     Validate (p ++ "]"%char :: q) = Validate (p ++ "]"%char :: q')) /\
  (Validate src = Some UnmatchedOpen <->
   ~ Balanced src /\
   ~ exists p q, src = p ++ "]"%char :: q /\ Balanced p).
Proof.
  assert (Hacc : forall s, Validate s = None <-> Balanced s).
  { intros s. unfold Validate, Stack.empty. split.
    - apply (Validate_loop_accepts (length s)). lia.
    - intros Hb. rewrite <- (app_nil_r s).
      rewrite (Validate_loop_Balanced s Hb). reflexivity. }
  assert (Hclose : forall p q, Balanced p ->
                     Validate (p ++ "]"%char :: q) = Some UnmatchedClose).
  { intros p q Hp. unfold Validate, Stack.empty.
    rewrite (Validate_loop_Balanced p Hp). reflexivity. }
  assert (Hrej : forall s, Validate s = Some UnmatchedClose <->
                   exists p q, s = p ++ "]"%char :: q /\ Balanced p).
  { intros s. split.
    - unfold Validate, Stack.empty.
      apply (Validate_loop_rejects_close (length s)). lia.
    - intros (p & q & -> & Hp). apply Hclose. exact Hp. }
  split; [apply Hacc | split; [apply Hrej | split]].
  - intros p q q' Hp. rewrite !Hclose by exact Hp. split; reflexivity.
  - rewrite <- Hacc, <- Hrej.
    destruct (Validate_outcomes Stack.empty 0 src) as [H | [H | H]];
      fold (Validate src) in H; rewrite H.
    + split; [discriminate | intros [H1 _]; exfalso; apply H1; reflexivity].
    + split; [discriminate | intros [_ H2]; exfalso; apply H2; reflexivity].
    + split; [intros _; split; discriminate | reflexivity].
Qed.

Lemma Validate_accepts_iff_balanced_witness :
  Balanced (src_of "[[[][[[]]]]]") /\
  ~ Balanced (src_of "[[[[[]]][][]]][]]]]]]][]]][[]") /\
  ~ Balanced (src_of "[").
Proof.
  split; [| split].
  - apply (proj1 (Validate_accepts_iff_balanced _)). vm_compute. reflexivity.
  - intros Hb.
    apply (proj1 (Validate_accepts_iff_balanced _)) in Hb.
    vm_compute in Hb. discriminate.
  - intros Hb.
    apply (proj1 (Validate_accepts_iff_balanced _)) in Hb.
    vm_compute in Hb. discriminate.
Defined.

(** ** The loops around a position *)

Lemma pending_from_app (a b : code) :
  forall stk i,
    pending_from stk i (a ++ b) =
    pending_from (pending_from stk i a) (i + len a) b.
Proof.
  induction a as [| c a IH]; intros stk i.
  - cbn. len_simpl. rewrite Z.add_0_r. reflexivity.
  - cbn [app pending_from]. len_simpl.
    replace (i + (1 + len a)) with (i + 1 + len a) by lia.
    case_char c "["%char; [apply IH |].
    case_char c "]"%char; apply IH.
Qed.

Lemma pending_from_Balanced (b : code) :
  Balanced b -> forall stk i, pending_from stk i b = stk.
Proof.
  induction 1 as [| c l Hc1 Hc2 Hl IH | x l Hx IHx Hl IHl]; intros stk i.
  - reflexivity.
  - cbn [pending_from].
    case_char c "["%char; [congruence |].
    case_char c "]"%char; [congruence |]. apply IH.
  - cbn [pending_from Ascii.eqb Bool.eqb]. rewrite pending_from_app.
    rewrite IHx. cbn [pending_from Ascii.eqb Bool.eqb tail]. apply IHl.
Qed.

Lemma enclosing_prefix (pre rest : code) :
  enclosing (pre ++ rest) (len pre) = pending_from [] 0 pre.
Proof.
  unfold enclosing, len. rewrite Nat2Z.id.
  rewrite take_app_length. reflexivity.
Qed.

(** The scan of [Validate] holds the pending openers on its stack. *)
Lemma Validate_loop_app (a b : code) :
  forall stk i,
    Validate_loop stk i (a ++ b) = None ->
    Validate_loop (pending_from stk i a) (i + len a) b = None.
Proof.
  induction a as [| c a IH]; intros stk i Hv.
  - cbn. len_simpl. rewrite Z.add_0_r. exact Hv.
  - cbn [app Validate_loop] in Hv. cbn [pending_from]. len_simpl.
    replace (i + (1 + len a)) with (i + 1 + len a) by lia.
    case_char c "["%char; [apply IH; exact Hv |].
    case_char c "]"%char; [| apply IH; exact Hv].
    destruct stk as [| x stk]; cbn [Stack.Pop] in Hv; [discriminate |].
    apply IH. exact Hv.
Qed.

Lemma Validate_closer_has_opener (pre post : code) :
  Validate (pre ++ "]"%char :: post) = None ->
  pending_from [] 0 pre <> [].
Proof.
  unfold Validate, Stack.empty.
  intros Hv%Validate_loop_app Hnil. rewrite Hnil in Hv.
  cbn in Hv. discriminate.
Qed.

Lemma Validate_none_pending (src : code) :
  Validate src = None -> pending_from [] 0 src = [].
Proof.
  intros Hv. unfold Validate, Stack.empty in Hv.
  rewrite <- (app_nil_r src) in Hv.
  apply Validate_loop_app in Hv.
  destruct (pending_from [] 0 src) as [| x stk]; [reflexivity |].
  rewrite Validate_loop_end_pending in Hv. discriminate.
Qed.

Lemma Validate_opener_has_closer (pre rest : code) :
  Validate (pre ++ "["%char :: rest) = None ->
  exists body post, rest = body ++ "]"%char :: post /\ Balanced body.
Proof.
  unfold Validate, Stack.empty.
  intros Hv%Validate_loop_app. cbn [Validate_loop Ascii.eqb Bool.eqb] in Hv.
  unfold Stack.Push in Hv.
  destruct (Validate_loop_closes _ rest _ _ _ None (le_n _) Hv
              ltac:(discriminate)) as (body & post & Hrest & Hb & _).
  eauto.
Qed.

Lemma snoc_case {A : Type} (l : list A) :
  l = [] \/ exists x l', l = l' ++ [x].
Proof. induction l using rev_ind; [left | right]; eauto. Qed.

(** The innermost pending opener is followed by a properly nested text. *)
Lemma pending_from_top (n : nat) :
  forall pre p rest,
    (length pre <= n)%nat ->
    pending_from [] 0 pre = p :: rest ->
    exists pre1 body,
      pre = pre1 ++ "["%char :: body /\
      Balanced body /\
      p = len pre1 /\
      pending_from [] 0 pre1 = rest.
Proof.
  induction n as [| n IH]; intros pre p rest Hn Hp.
  - destruct pre; [cbn in Hp; discriminate | cbn in Hn; lia].
  - destruct (snoc_case pre) as [-> | (c & pre' & ->)];
      [cbn in Hp; discriminate |].
    rewrite length_app in Hn. cbn [length] in Hn.
    rewrite pending_from_app in Hp. cbn [pending_from] in Hp.
    rewrite Z.add_0_l in Hp.
    case_char c "["%char; [| case_char c "]"%char].
    + injection Hp as <- <-. exists pre', []. auto.
    + destruct (pending_from [] 0 pre') as [| q stk] eqn:Hq;
        [cbn in Hp; discriminate |].
      cbn [tail] in Hp. subst stk.
      destruct (IH pre' q (p :: rest) ltac:(lia) Hq)
        as (a & b & -> & Hb & -> & Ha).
      rewrite length_app in Hn. cbn [length] in Hn.
      destruct (IH a p rest ltac:(lia) Ha) as (a1 & b1 & -> & Hb1 & -> & Ha1).
      exists a1, (b1 ++ "["%char :: b ++ ["]"%char]).
      split; [| split; [| split; [reflexivity | exact Ha1]]].
      * list_assoc.
      * apply Balanced_app; [exact Hb1 |]. apply Balanced_loop; auto.
    + destruct (IH pre' p rest ltac:(lia) Hp) as (a & b & -> & Hb & -> & Ha).
      exists a, (b ++ [c]).
      split; [| split; [| split; [reflexivity | exact Ha]]].
      * list_assoc.
      * apply Balanced_app; [exact Hb |]. apply Balanced_other; auto.
Qed.

(** ** The skip loop *)

(** Each turn of the skip loop is [index += 1] followed by a read of
    [code[index]]. *)
Lemma skip_loop_turn (src : code) (stk : Stack.Stack) (idx : Z) :
  0 <= idx + 1 ->
  skip_loop stk idx (drop (Z.to_nat (idx + 1)) src) =
  match at_index src (idx + 1) with
  | None => Panic CodeIndexOutOfRange
  | Some c =>
      skip_loop stk idx (c :: drop (Z.to_nat (idx + 1 + 1)) src)
  end.
Proof.
  intros Hidx. unfold at_index.
  destruct (Z.ltb_spec (idx + 1) 0) as [Hneg | _]; [lia |].
  replace (Z.to_nat (idx + 1 + 1)) with (S (Z.to_nat (idx + 1))) by lia.
  destruct (src !! Z.to_nat (idx + 1)) as [c |] eqn:Hc.
  - rewrite (drop_S _ _ _ Hc). reflexivity.
  - rewrite drop_ge by (apply lookup_ge_None; exact Hc). reflexivity.
Qed.

(** A properly nested text leaves the skip stack as it found it. *)
Lemma skip_loop_Balanced (b : code) :
  Balanced b ->
  forall stk idx rest,
    stk <> [] ->
    skip_loop stk idx (b ++ rest) = skip_loop stk (idx + len b) rest.
Proof.
  induction 1 as [| c l Hc1 Hc2 Hl IH | x l Hx IHx Hl IHl];
    intros stk idx rest Hstk.
  - len_simpl. rewrite Z.add_0_r. reflexivity.
  - cbn [app skip_loop].
    case_char c "["%char; [congruence |].
    case_char c "]"%char; [congruence |].
    rewrite IH by exact Hstk. len_simpl. f_equal. lia.
  - cbn [app skip_loop Ascii.eqb Bool.eqb]. rewrite <- app_assoc.
    unfold Stack.Push. rewrite IHx by discriminate.
    cbn [app skip_loop Ascii.eqb Bool.eqb Stack.Pop].
    destruct stk as [| y stk]; [congruence |]. cbn [Stack.IsEmpty].
    rewrite IHl by discriminate. len_simpl. f_equal. lia.
Qed.

Lemma skip_loop_finds_closer (body post : code) (idx : Z) :
  Balanced body ->
  skip_loop (Stack.Push 1 Stack.empty) idx (body ++ "]"%char :: post) =
  Ok (idx + len body + 1).
Proof.
  intros Hb. unfold Stack.Push, Stack.empty.
  rewrite (skip_loop_Balanced body Hb) by discriminate.
  reflexivity.
Qed.

(** ** One iteration of the dispatch loop *)

Lemma cell_set_loopStack (s : Stack.Stack) (st : state) :
  cell (set_loopStack s st) = cell st.
Proof. reflexivity. Qed.

Lemma dispatch_open_zero (fuel : nat) (pre body post : code) (st : state) :
  Balanced body ->
  index st = len pre ->
  cell st = Ok 0 ->
  dispatch fuel (pre ++ "["%char :: body ++ "]"%char :: post) st =
  Ok (set_index (len pre + 1 + len body) st).
Proof.
  intros Hb Hidx Hcell. unfold dispatch. rewrite Hidx, at_index_middle.
  cbn [Ascii.eqb Bool.eqb]. unfold OpenLoop. rewrite Hcell.
  cbn [bind Z.eqb fst snd]. rewrite drop_S_len_app.
  rewrite (skip_loop_finds_closer body post _ Hb). cbn [bind].
  do 2 f_equal. lia.
Qed.

Lemma dispatch_open_nonzero (fuel : nat) (src : code) (st : state) (v : Z) :
  at_index src (index st) = Some "["%char ->
  cell st = Ok v ->
  v <> 0 ->
  dispatch fuel src st =
  Ok (set_loopStack (index st :: loopStack st) st).
Proof.
  intros Hc Hcell Hv. unfold dispatch. rewrite Hc.
  cbn [Ascii.eqb Bool.eqb]. unfold OpenLoop. rewrite Hcell. cbn [bind].
  destruct (Z.eqb_spec v 0) as [-> | _]; [congruence |]. reflexivity.
Qed.

Lemma dispatch_close (fuel : nat) (src : code) (st : state)
      (p : Z) (rest : list Z) (v : Z) :
  at_index src (index st) = Some "]"%char ->
  loopStack st = p :: rest ->
  cell st = Ok v ->
  0 <= p ->
  dispatch fuel src st =
  Ok (if v =? 0 then set_loopStack rest st
      else set_index (p - 1) (set_loopStack rest st)).
Proof.
  intros Hc Hstk Hcell Hp. unfold dispatch. rewrite Hc.
  cbn [Ascii.eqb Bool.eqb]. unfold CloseLoop. rewrite Hstk.
  cbn [Stack.Pop]. rewrite cell_set_loopStack, Hcell. cbn [bind].
  destruct (Z.eqb_spec v 0) as [-> | _]; cbn [bind fst snd].
  - reflexivity.
  - destruct (Z.eqb_spec p (-1)) as [-> | _]; [lia | reflexivity].
Qed.

Lemma store_frame (v : Z) (st : state) :
  match store v st with
  | Ok st' => index st' = index st /\ loopStack st' = loopStack st
  | Panic p => p = TapeIndexOutOfRange \/ p = SliceIndexOutOfRange
  | OutOfFuel => True
  end.
Proof. unfold store. destruct (at_index _ _); auto. Qed.

Lemma cell_cases (st : state) :
  (exists v, cell st = Ok v) \/ cell st = Panic TapeIndexOutOfRange.
Proof. unfold cell. destruct (at_index _ _); eauto. Qed.

Lemma FormatCells_loop_panic (fuel : nat) (t : list Z) :
  forall i stop p,
    FormatCells_loop fuel t i stop = Panic p -> p = TapeIndexOutOfRange.
Proof.
  induction fuel as [| fuel IH]; intros i stop p; cbn [FormatCells_loop];
    destruct (i =? stop); try discriminate.
  destruct (at_index _ _); [| congruence].
  destruct (FormatCells_loop fuel t _ stop) eqn:Hrec; cbn [bind];
    try discriminate.
  intros [= <-]. eapply IH. exact Hrec.
Qed.

Lemma FormatCells_panic (fuel : nat) (a b : Z) (st : state) (p : panic) :
  FormatCells fuel a b st = Panic p -> p = TapeIndexOutOfRange.
Proof.
  unfold FormatCells, FormatCells_cells.
  destruct (FormatCells_loop _ _ _ _) eqn:Hloop; cbn [bind]; try discriminate.
  intros [= <-]. eapply FormatCells_loop_panic. exact Hloop.
Qed.

(** A special instruction moves neither the instruction index nor the
    loop stack, and it never reads the source. *)
Lemma RunSpecialInstruction_frame (fuel : nat) (inst : list string)
      (st : state) :
  match RunSpecialInstruction fuel inst st with
  | Ok st' => index st' = index st /\ loopStack st' = loopStack st
  | Panic p => p = TapeIndexOutOfRange \/ p = SliceIndexOutOfRange
  | OutOfFuel => True
  end.
Proof.
  unfold RunSpecialInstruction.
  destruct (inst !! 0%nat) as [name |]; [| auto].
  destruct (name =? "clear")%string; [split; reflexivity |].
  destruct (name =? "print")%string.
  { destruct (FormatCells _ _ _ _) eqn:Hf; cbn [bind];
      [split; reflexivity | left; eapply FormatCells_panic; exact Hf | exact I]. }
  destruct (name =? "printn")%string; [| split; reflexivity].
  destruct (inst !! 1%nat) as [arg |]; [| auto].
  destruct (Atoi arg) as [n |]; [| split; reflexivity].
  destruct (FormatCells _ _ _ _) eqn:Hf; cbn [bind];
    [split; reflexivity | left; eapply FormatCells_panic; exact Hf | exact I].
Qed.

(** Outside the two brackets the [switch] moves neither the instruction
    index nor the loop stack, and it panics only on a tape or slice index. *)
Lemma dispatch_other (fuel : nat) (src : code) (st : state) (c : ascii) :
  at_index src (index st) = Some c ->
  c <> "["%char -> c <> "]"%char ->
  match dispatch fuel src st with
  | Ok st' => index st' = index st /\ loopStack st' = loopStack st
  | Panic p => p = TapeIndexOutOfRange \/ p = SliceIndexOutOfRange
  | OutOfFuel => True
  end.
Proof.
  intros Hc Hopen Hclose. unfold dispatch. rewrite Hc.
  case_char c "<"%char.
  { unfold MoveLeft. destruct (_ =? _); split; reflexivity. }
  case_char c ">"%char.
  { unfold MoveRight. destruct (_ =? _); split; reflexivity. }
  case_char c "-"%char.
  { unfold Decrement. destruct (cell_cases st) as [[v ->] | ->]; cbn [bind];
      [| auto].
    apply store_frame. }
  case_char c "+"%char.
  { unfold Increment. destruct (cell_cases st) as [[v ->] | ->]; cbn [bind];
      [| auto].
    apply store_frame. }
  case_char c "."%char.
  { unfold Output. destruct (cell_cases st) as [[v ->] | ->]; cbn [bind];
      [split; reflexivity | auto]. }
  case_char c ","%char.
  { unfold Input. destruct (cell_cases st) as [[v ->] | ->]; cbn [bind];
      [| auto].
    destruct (input st) as [| b inp]; [split; reflexivity |].
    apply (store_frame b (set_input inp st)). }
  case_char c "["%char; [congruence |].
  case_char c "]"%char; [congruence |].
  case_char c "!"%char; [| split; reflexivity].
  destruct (SpecialInstructionRegex _) as [[| whole groups] |];
    try (split; reflexivity).
  apply RunSpecialInstruction_frame.
Qed.

(** ** The invariant of the dispatch loop *)

Lemma enclosing_at (src pre rest : code) (i : Z) :
  src = pre ++ rest -> i = len pre ->
  enclosing src i = pending_from [] 0 pre.
Proof. intros -> ->. apply enclosing_prefix. Qed.

Lemma enclosing_next (pre post : code) (c : ascii) :
  enclosing (pre ++ c :: post) (len pre + 1) =
  pending_from (pending_from [] 0 pre) (len pre) [c].
Proof.
  rewrite (enclosing_at _ (pre ++ [c]) post).
  - rewrite pending_from_app. reflexivity.
  - list_assoc.
  - len_simpl. lia.
Qed.

Lemma enclosing_after_loop (pre body post : code) :
  Balanced body ->
  enclosing (pre ++ "["%char :: body ++ "]"%char :: post)
            (len pre + 1 + len body + 1) =
  pending_from [] 0 pre.
Proof.
  intros Hb.
  rewrite (enclosing_at _ (pre ++ "["%char :: body ++ ["]"%char]) post).
  - rewrite pending_from_app. cbn [pending_from Ascii.eqb Bool.eqb].
    rewrite pending_from_app, (pending_from_Balanced body Hb).
    reflexivity.
  - list_assoc.
  - len_simpl. lia.
Qed.

Lemma step_Inv (fuel : nat) (src : code) (s0 : list Z) (st : state) :
  Validate src = None ->
  Inv src s0 st ->
  index st < len src ->
  match step fuel src st with
  | Ok st' => Inv src s0 st'
  | Panic p => p = TapeIndexOutOfRange \/ p = SliceIndexOutOfRange
  | OutOfFuel => True
  end.
Proof.
  intros Hval [Hrange Hstk] Hlt. unfold step.
  destruct (at_index src (index st)) as [c |] eqn:Hc;
    [| apply at_index_None in Hc; lia].
  pose proof Hc as Hsplit.
  apply at_index_Some in Hsplit. destruct Hsplit as (pre & post & -> & Hidx).
  rewrite Hidx, enclosing_prefix in Hstk.
  case_char c "["%char; [| case_char c "]"%char].
  - (* loop entry *)
    destruct (cell_cases st) as [[v Hv] | Hv].
    2:{ unfold dispatch, OpenLoop. rewrite Hc, Hv. cbn. auto. }
    destruct (Z.eq_dec v 0) as [-> | Hnz].
    + destruct (Validate_opener_has_closer _ _ Hval)
        as (body & post' & -> & Hb).
      rewrite (dispatch_open_zero fuel pre body post' st Hb Hidx Hv).
      cbn [bind]. unfold Inv. cbn [index loopStack set_index].
      rewrite (enclosing_after_loop pre body post' Hb).
      split; [| exact Hstk].
      len_simpl. pose proof (len_nonneg pre). pose proof (len_nonneg body).
      pose proof (len_nonneg post'). lia.
    + rewrite (dispatch_open_nonzero fuel _ st v Hc Hv Hnz).
      cbn [bind]. unfold Inv. cbn [index loopStack set_index set_loopStack].
      rewrite Hidx, enclosing_next. cbn [pending_from Ascii.eqb Bool.eqb].
      rewrite Hstk. split; [| reflexivity].
      len_simpl. pose proof (len_nonneg pre). pose proof (len_nonneg post).
      lia.
  - (* loop exit *)
    pose proof (Validate_closer_has_opener _ _ Hval) as Hne.
    destruct (pending_from [] 0 pre) as [| p rest] eqn:Hpend; [congruence |].
    destruct (pending_from_top _ pre p rest (le_n _) Hpend)
      as (pre1 & body & Hpre & Hb & Hp & Hrest).
    destruct (cell_cases st) as [[v Hv] | Hv].
    2:{ unfold dispatch, CloseLoop. rewrite Hc, Hstk. cbn [Stack.Pop app].
        rewrite cell_set_loopStack, Hv. cbn. auto. }
    assert (Hp0 : 0 <= p) by (rewrite Hp; apply len_nonneg).
    rewrite (dispatch_close fuel _ st p (rest ++ s0) v Hc Hstk Hv Hp0).
    cbn [bind]. unfold Inv.
    destruct (Z.eqb_spec v 0) as [-> | Hnz];
      cbn [index loopStack set_index set_loopStack].
    + rewrite Hidx, enclosing_next, Hpend.
      cbn [pending_from Ascii.eqb Bool.eqb tail]. split; [| reflexivity].
      len_simpl. pose proof (len_nonneg pre). pose proof (len_nonneg post).
      lia.
    + replace (p - 1 + 1) with p by lia.
      rewrite (enclosing_at _ pre1 ("["%char :: body ++ "]"%char :: post) p);
        [| rewrite Hpre; list_assoc | exact Hp].
      rewrite Hrest. split; [| reflexivity].
      rewrite Hp, Hpre. len_simpl. pose proof (len_nonneg pre1).
      pose proof (len_nonneg body). pose proof (len_nonneg post). lia.
  - (* any other character *)
    pose proof (dispatch_other fuel _ st c Hc E E0) as Hd.
    destruct (dispatch fuel _ st) as [st' | p |]; cbn [bind]; [| exact Hd ..].
    destruct Hd as [Hi Hs]. unfold Inv. cbn [index loopStack set_index].
    rewrite Hi, Hs, Hidx, enclosing_next, Hstk.
    cbn [pending_from].
    destruct (Ascii.eqb_spec c "["%char); [congruence |].
    destruct (Ascii.eqb_spec c "]"%char); [congruence |].
    split; [| reflexivity].
    len_simpl. pose proof (len_nonneg pre). pose proof (len_nonneg post). lia.
Qed.

Lemma Reach_Inv (src : code) (st0 st : state) :
  Validate src = None ->
  index st0 = 0 ->
  src <> [] ->
  Reach src st0 st ->
  Inv src (loopStack st0) st /\ index st < len src.
Proof.
  intros Hval Hidx Hne. induction 1 as [| st st' fuel Hreach IH Hstep Hlt].
  - unfold Inv, enclosing. rewrite Hidx. cbn [Z.to_nat take pending_from app].
    destruct src as [| c src]; [congruence |]. len_simpl.
    pose proof (len_nonneg src). repeat split; lia.
  - destruct IH as [Hinv Hin]. split; [| exact Hlt].
    pose proof (step_Inv fuel src _ st Hval Hinv Hin) as Hs.
    rewrite Hstep in Hs. exact Hs.
Qed.

Lemma Run_loop_Reach (fuel : nat) (src : code) :
  forall st0 st st',
    Reach src st0 st ->
    Run_loop fuel src st = Ok st' ->
    exists st1 fuel1,
      Reach src st0 st1 /\ step fuel1 src st1 = Ok st' /\ len src <= index st'.
Proof.
  induction fuel as [| fuel IH]; intros st0 st st' Hreach Hrun;
    [discriminate |].
  cbn [Run_loop] in Hrun.
  destruct (step fuel src st) as [st2 | |] eqn:Hstep; cbn [bind] in Hrun;
    try discriminate.
  destruct (Z.geb_spec (index st2) (len src)) as [Hge | Hlt'].
  - injection Hrun as <-. exists st, fuel. auto.
  - apply (IH st0 st2 st'); [| exact Hrun].
    eapply Reach_next; eauto.
Qed.

(** ** The loop stack and the loops of the source *)

Lemma pending_from_NoDup (l : code) :
  forall stk i,
    NoDup stk -> (forall x, x ∈ stk -> x < i) ->
    NoDup (pending_from stk i l) /\
    (forall x, x ∈ pending_from stk i l -> x < i + len l).
Proof.
  induction l as [| c l IH]; intros stk i Hnd Hlt.
  - cbn. split; [exact Hnd |]. intros x Hx. specialize (Hlt x Hx).
    len_simpl. lia.
  - cbn [pending_from]. len_simpl.
    replace (i + (1 + len l)) with (i + 1 + len l) by lia.
    case_char c "["%char; [| case_char c "]"%char].
    + apply IH.
      * apply NoDup_cons. split; [| exact Hnd].
        intros Hin. specialize (Hlt i Hin). lia.
      * intros x [-> | Hx]%elem_of_cons; [lia |].
        specialize (Hlt x Hx). lia.
    + apply IH.
      * destruct stk as [| y stk]; [exact Hnd |].
        apply NoDup_cons in Hnd. apply Hnd.
      * intros x Hx. destruct stk as [| y stk]; [inversion Hx |].
        cbn [tail] in Hx.
        assert (x < i) by (apply Hlt; apply elem_of_cons; auto). lia.
    + apply IH; [exact Hnd |].
      intros x Hx. specialize (Hlt x Hx). lia.
Qed.

(** Each pending opener is closed by what follows, around a properly
    nested text. *)
Lemma pending_closed_later (stk : list Z) :
  forall pre suffix k p,
    pending_from [] 0 pre = stk ->
    Validate_loop stk k suffix = None ->
    p ∈ stk ->
    exists pre1 mid sfx post,
      pre = pre1 ++ "["%char :: mid /\
      suffix = sfx ++ "]"%char :: post /\
      p = len pre1 /\
      forall x, Balanced x -> Balanced (mid ++ x ++ sfx).
Proof.
  induction stk as [| y stk IH]; intros pre suffix k p Hpend Hval Hin.
  - inversion Hin.
  - destruct (pending_from_top _ pre y stk (le_n _) Hpend)
      as (pre1 & a & -> & Ha & -> & Hpre1).
    destruct (Validate_loop_closes _ suffix _ _ _ None (le_n _) Hval
                ltac:(discriminate)) as (b & post & -> & Hb & Hpost).
    apply elem_of_cons in Hin. destruct Hin as [-> | Hin].
    + exists pre1, a, b, post. repeat split; try reflexivity.
      intros x Hx. apply Balanced_app; [exact Ha |].
      apply Balanced_app; assumption.
    + destruct (IH pre1 post _ p Hpre1 Hpost Hin)
        as (pre1' & mid' & sfx' & post' & -> & -> & -> & Hmid).
      exists pre1', (mid' ++ "["%char :: a), (b ++ "]"%char :: sfx'), post'.
      split; [list_assoc | split; [list_assoc | split; [reflexivity |]]].
      intros x Hx.
      replace ((mid' ++ "["%char :: a) ++ x ++ b ++ "]"%char :: sfx')
        with (mid' ++ ("["%char :: (a ++ x ++ b) ++ "]"%char :: []) ++ sfx')
        by list_assoc.
      apply Hmid. apply Balanced_loop; [| constructor].
      apply Balanced_app; [exact Ha |]. apply Balanced_app; assumption.
Qed.

Lemma pending_is_Matched (pre suffix : code) (p : Z) :
  Validate (pre ++ suffix) = None ->
  p ∈ pending_from [] 0 pre ->
  exists q, Matched (pre ++ suffix) p q /\ p < len pre <= q.
Proof.
  unfold Validate, Stack.empty. intros Hval%Validate_loop_app Hin.
  destruct (pending_closed_later _ pre suffix _ p eq_refl Hval Hin)
    as (pre1 & mid & sfx & post & -> & -> & -> & Hmid).
  exists (len pre1 + 1 + len (mid ++ sfx)). split.
  - exists pre1, (mid ++ sfx), post. split; [list_assoc | split].
    + specialize (Hmid [] Balanced_nil). exact Hmid.
    + split; reflexivity.
  - len_simpl. pose proof (len_nonneg mid). pose proof (len_nonneg sfx). lia.
Qed.

(** No prefix of a properly nested text closes an opener that was pending
    before it. *)
Lemma pending_from_Balanced_prefix (b : code) :
  Balanced b ->
  forall k stk i, exists new, pending_from stk i (take k b) = new ++ stk.
Proof.
  induction 1 as [| c l Hc1 Hc2 Hl IH | x l Hx IHx Hl IHl]; intros k stk i.
  - exists []. destruct k; reflexivity.
  - destruct k as [| k]; [exists []; reflexivity |].
    cbn [take pending_from].
    destruct (Ascii.eqb_spec c "["%char); [congruence |].
    destruct (Ascii.eqb_spec c "]"%char); [congruence |].
    apply IH.
  - destruct k as [| k]; [exists []; reflexivity |].
    cbn [take pending_from Ascii.eqb Bool.eqb].
    destruct (Nat.le_gt_cases k (length x)) as [Hle | Hgt].
    + rewrite take_app_le by exact Hle.
      destruct (IHx k (i :: stk) (i + 1)) as [new ->].
      exists (new ++ [i]). list_assoc.
    + rewrite take_app_ge by lia. rewrite pending_from_app.
      rewrite (pending_from_Balanced x Hx).
      destruct (k - length x)%nat as [| k'] eqn:Hk; [lia |].
      cbn [take pending_from Ascii.eqb Bool.eqb tail]. apply IHl.
Qed.

Lemma Matched_is_pending (src : code) (p q i : Z) :
  Matched src p q -> p < i <= q -> p ∈ enclosing src i.
Proof.
  intros (pre & body & post & -> & Hb & -> & ->) Hi.
  unfold enclosing.
  replace (Z.to_nat i)
    with (length pre + S (Z.to_nat (i - len pre - 1)))%nat
    by (unfold len in *; lia).
  rewrite take_app_add. cbn [take].
  rewrite take_app_le by (unfold len in *; lia).
  rewrite pending_from_app. cbn [pending_from Ascii.eqb Bool.eqb].
  destruct (pending_from_Balanced_prefix body Hb
              (Z.to_nat (i - len pre - 1))
              (0 + len pre :: pending_from [] 0 pre) (0 + len pre + 1))
    as [new ->].
  apply elem_of_app. right. apply elem_of_cons. left. lia.
Qed.

(** The skip stack of the source is that counter: its depth. *)
Lemma skip_loop_counter (rest : code) :
  forall stk idx,
    stk <> [] ->
    skip_loop stk idx rest =
    match skip_counter (len stk) idx rest with
    | Some j => Ok j
    | None => Panic CodeIndexOutOfRange
    end.
Proof.
  induction rest as [| c rest IH]; intros stk idx Hne; [reflexivity |].
  cbn [skip_loop skip_counter].
  case_char c "["%char; [| case_char c "]"%char].
  - unfold Stack.Push. rewrite IH by discriminate. len_simpl.
    replace (1 + len stk) with (len stk + 1) by lia. reflexivity.
  - destruct stk as [| x stk]; [congruence |]. cbn [Stack.Pop]. len_simpl.
    replace (1 + len stk - 1) with (len stk) by lia.
    destruct stk as [| y stk]; [reflexivity |]. cbn [Stack.IsEmpty].
    destruct (Z.eqb_spec (len (y :: stk)) 0) as [H0 | _].
    + rewrite len_cons in H0. pose proof (len_nonneg stk). lia.
    + apply IH. discriminate.
  - apply IH. exact Hne.
Qed.

(** ** Loop entry *)

(** C4: in a validated source, an iteration that finds ["["] under the
    instruction index behaves as follows.  On a zero cell the skip loop,
    whose stack is a counter started at 1, stops on the ["]"] that matches
    this ["["]; the iteration changes nothing but the instruction index and
    leaves it just after that ["]"], so no instruction of the body is
    dispatched.  On a non-zero cell the position of the ["["] is pushed on
    the loop stack and the next iteration is at the following character. *)
Theorem loop_entry_skips_or_pushes (src : code) (st : state) :
  Validate src = None ->
  at_index src (index st) = Some "["%char ->
  (cell st = Ok 0 ->
   exists j,
     Matched src (index st) j /\
     skip_loop (Stack.Push 1 Stack.empty) (index st)
               (drop (S (Z.to_nat (index st))) src) = Ok j /\
     skip_counter 1 (index st) (drop (S (Z.to_nat (index st))) src) = Some j /\
     forall fuel,
       dispatch fuel src st = Ok (set_index j st) /\
       step fuel src st = Ok (set_index (j + 1) st)) /\
  (forall v, cell st = Ok v -> v <> 0 ->
   forall fuel,
     dispatch fuel src st =
       Ok (set_loopStack (index st :: loopStack st) st) /\
     step fuel src st =
       Ok (set_index (index st + 1)
             (set_loopStack (index st :: loopStack st) st))).
Proof.
  intros Hval Hc. split.
  - intros Hcell. pose proof Hc as Hsplit.
    apply at_index_Some in Hsplit. destruct Hsplit as (pre & rest & -> & Hidx).
    destruct (Validate_opener_has_closer _ _ Hval) as (body & post & -> & Hb).
    exists (len pre + 1 + len body).
    assert (Hskip : skip_loop (Stack.Push 1 Stack.empty) (index st)
                      (drop (S (Z.to_nat (index st)))
                         (pre ++ "["%char :: body ++ "]"%char :: post)) =
                    Ok (len pre + 1 + len body)).
    { rewrite Hidx, drop_S_len_app, (skip_loop_finds_closer _ _ _ Hb).
      f_equal. lia. }
    split; [| split; [exact Hskip | split]].
    + exists pre, body, post. auto.
    + rewrite skip_loop_counter in Hskip by discriminate.
      change (len (Stack.Push 1 Stack.empty)) with 1 in Hskip.
      destruct (skip_counter 1 _ _); congruence.
    + intros fuel. unfold step.
      rewrite (dispatch_open_zero fuel pre body post st Hb Hidx Hcell).
      split; reflexivity.
  - intros v Hcell Hv fuel. unfold step.
    rewrite (dispatch_open_nonzero fuel src st v Hc Hcell Hv).
    split; reflexivity.
Qed.

Lemma loop_entry_skips_or_pushes_witness :
  step 0 (src_of "+[-[>]+]<.") (mkState [0; 3] 0 1 [] [] []) =
    Ok (mkState [0; 3] 0 8 [] [] []) /\
  step 0 (src_of "+[-[>]+]<.") (mkState [2; 3] 0 1 [] [] []) =
    Ok (mkState [2; 3] 0 2 [1] [] []).
Proof.
  assert (Hval : Validate (src_of "+[-[>]+]<.") = None)
    by (vm_compute; reflexivity).
  split.
  - destruct (loop_entry_skips_or_pushes (src_of "+[-[>]+]<.")
                (mkState [0; 3] 0 1 [] [] []) Hval eq_refl)
      as [Hzero _].
    destruct (Hzero eq_refl) as (j & _ & Hj & _ & Hstep).
    vm_compute in Hj. injection Hj as <-.
    exact (proj2 (Hstep 0%nat)).
  - destruct (loop_entry_skips_or_pushes (src_of "+[-[>]+]<.")
                (mkState [2; 3] 0 1 [] [] []) Hval eq_refl)
      as [_ Hnz].
    assert (H2 : 2 <> 0) by lia.
    exact (proj2 (Hnz 2 eq_refl H2 0%nat)).
Defined.

(** ** Loop exit *)

(** C5: in a run of a validated source, an iteration that finds ["]"]
    under the instruction index finds the loop stack non-empty, with the
    position of the matching ["["] on top, and pops exactly that entry.  On
    a non-zero cell the [switch] sets the instruction index to that position
    minus 1, so that after [index += 1] the next iteration is on the
    matching ["["]; on a zero cell the index is only advanced by 1. *)
Theorem loop_exit_pops_and_jumps (src : code) (st0 st : state) :
  Validate src = None ->
  index st0 = 0 ->
  Reach src st0 st ->
  at_index src (index st) = Some "]"%char ->
  exists p rest,
    loopStack st = p :: rest /\
    Matched src p (index st) /\
    at_index src p = Some "["%char /\
    (forall fuel, cell st = Ok 0 ->
       CloseLoop st = Ok (-1, set_loopStack rest st) /\
       dispatch fuel src st = Ok (set_loopStack rest st) /\
       step fuel src st =
         Ok (set_index (index st + 1) (set_loopStack rest st))) /\
    (forall fuel v, cell st = Ok v -> v <> 0 ->
       CloseLoop st = Ok (p, set_loopStack rest st) /\
       dispatch fuel src st =
         Ok (set_index (p - 1) (set_loopStack rest st)) /\
       step fuel src st = Ok (set_index p (set_loopStack rest st))).
Proof.
  intros Hval Hidx0 Hreach Hc.
  assert (Hne : src <> []).
  { intros ->. unfold at_index in Hc. destruct (_ <? _); discriminate. }
  destruct (Reach_Inv src st0 st Hval Hidx0 Hne Hreach) as [[_ Hstk] _].
  pose proof Hc as Hsplit.
  apply at_index_Some in Hsplit. destruct Hsplit as (pre & post & -> & Hidx).
  rewrite Hidx, enclosing_prefix in Hstk.
  pose proof (Validate_closer_has_opener _ _ Hval) as Hpne.
  destruct (pending_from [] 0 pre) as [| p rest] eqn:Hpend; [congruence |].
  destruct (pending_from_top _ pre p rest (le_n _) Hpend)
    as (pre1 & body & -> & Hb & -> & Hrest).
  change (loopStack st = len pre1 :: (rest ++ loopStack st0)) in Hstk.
  exists (len pre1), (rest ++ loopStack st0).
  split; [exact Hstk | split; [| split; [| split]]].
  - exists pre1, body, post. rewrite Hidx.
    split; [list_assoc | split; [exact Hb | split; [reflexivity |]]].
    len_simpl. lia.
  - rewrite <- app_assoc. apply at_index_middle.
  - intros fuel Hcell. unfold step.
    rewrite (dispatch_close fuel _ st _ _ 0 Hc Hstk Hcell (len_nonneg _)).
    unfold CloseLoop. rewrite Hstk. cbn [Stack.Pop].
    rewrite cell_set_loopStack, Hcell. repeat split; reflexivity.
  - intros fuel v Hcell Hv. unfold step.
    rewrite (dispatch_close fuel _ st _ _ v Hc Hstk Hcell (len_nonneg _)).
    unfold CloseLoop. rewrite Hstk. cbn [Stack.Pop].
    rewrite cell_set_loopStack, Hcell. cbn [bind].
    destruct (Z.eqb_spec v 0) as [-> | _]; [congruence |].
    cbn [bind index set_index set_loopStack].
    repeat split; try reflexivity.
    unfold set_index, set_loopStack. cbn. do 2 f_equal. lia.
Qed.

Lemma loop_exit_pops_and_jumps_witness :
  step 0 (src_of "+[-]") (mkState [0] 0 3 [1] [] []) =
    Ok (mkState [0] 0 4 [] [] []) /\
  step 0 (src_of "++[-]") (mkState [1] 0 4 [2] [] []) =
    Ok (mkState [1] 0 2 [] [] []).
Proof.
  split.
  - assert (Hreach : Reach (src_of "+[-]") (mkState [0] 0 0 [] [] [])
                       (mkState [0] 0 3 [1] [] [])).
    { eapply (Reach_next _ _ (mkState [1] 0 2 [1] [] []) _ 0%nat);
        [| reflexivity | reflexivity].
      eapply (Reach_next _ _ (mkState [1] 0 1 [] [] []) _ 0%nat);
        [| reflexivity | reflexivity].
      eapply (Reach_next _ _ (mkState [0] 0 0 [] [] []) _ 0%nat);
        [| reflexivity | reflexivity].
      apply Reach_start. }
    destruct (loop_exit_pops_and_jumps (src_of "+[-]")
                (mkState [0] 0 0 [] [] []) (mkState [0] 0 3 [1] [] [])
                eq_refl eq_refl Hreach eq_refl)
      as (p & rest & Hstk & _ & _ & Hzero & _).
    injection Hstk as <- <-.
    exact (proj2 (proj2 (Hzero 0%nat eq_refl))).
  - assert (Hreach : Reach (src_of "++[-]") (mkState [0] 0 0 [] [] [])
                       (mkState [1] 0 4 [2] [] [])).
    { eapply (Reach_next _ _ (mkState [2] 0 3 [2] [] []) _ 0%nat);
        [| reflexivity | reflexivity].
      eapply (Reach_next _ _ (mkState [2] 0 2 [] [] []) _ 0%nat);
        [| reflexivity | reflexivity].
      eapply (Reach_next _ _ (mkState [1] 0 1 [] [] []) _ 0%nat);
        [| reflexivity | reflexivity].
      eapply (Reach_next _ _ (mkState [0] 0 0 [] [] []) _ 0%nat);
        [| reflexivity | reflexivity].
      apply Reach_start. }
    destruct (loop_exit_pops_and_jumps (src_of "++[-]")
                (mkState [0] 0 0 [] [] []) (mkState [1] 0 4 [2] [] [])
                eq_refl eq_refl Hreach eq_refl)
      as (p & rest & Hstk & _ & _ & _ & Hnz).
    injection Hstk as <- <-.
    assert (H1 : 1 <> 0) by lia.
    exact (proj2 (proj2 (Hnz 0%nat 1 eq_refl H1))).
Defined.

(** ** The depth of the loop stack *)

Lemma step_empty_source (fuel : nat) (st : state) :
  step fuel [] st = Panic CodeIndexOutOfRange.
Proof.
  unfold step, dispatch, at_index.
  destruct (index st <? 0); [reflexivity |].
  rewrite lookup_nil. reflexivity.
Qed.


(** C6, as first stated, fails.  [Run] never resets the loop stack, which
    is a variable of the package: a run started after a recovered panic
    inside a loop finds an opener on it.  The run of ["+"] then starts with a stack of depth 1 though no loop
    of ["+"] is entered, and returns [nil] with that stack, not with an
    empty one. *)
Lemma loopStack_survives_a_run :
  Reach (src_of "+[!! printn60000]") (Run_start false (initial_state []))
        after_recovered_panic /\
  step 1 (src_of "+[!! printn60000]") after_recovered_panic =
    Panic TapeIndexOutOfRange /\
  Validate (src_of "+") = None /\
  enclosing (src_of "+") (index (Run_start false after_recovered_panic)) = [] /\
  loopStack (Run_start false after_recovered_panic) = [1] /\
  match Run 1 (src_of "+") false after_recovered_panic with
  | Ok (None, st') => loopStack st' = [1]
  | _ => False
  end.
Proof.
  split; [| split; [| split; [| split; [| split]]]].
  - eapply (Reach_next _ _
              (mkState (<[0%nat := 1]> (replicate (Z.to_nat TapeLength) 0))
                       0 1 [] [] []) _ 0%nat);
      [| reflexivity | reflexivity].
    eapply (Reach_next _ _ (initial_state []) _ 0%nat);
      [| reflexivity | reflexivity].
    apply Reach_start.
  - reflexivity.
  - reflexivity.
  - reflexivity.
  - reflexivity.
  - vm_compute. reflexivity.
Qed.

(** C6, amended: take a validated source and a run from any state of the
    package.  Whenever an iteration of the loop of [Run] starts, the loop
    stack holds, on top of the stack that the run found, each once, the
    openers of exactly those loops of the source that hold the instruction
    index, that is the loops entered and not yet left; its depth is their
    number plus the depth that the run found, so the pop of ["]"] never
    finds it empty.  When [Run] returns, the loop stack is the one that the
    run found: empty exactly when the run found it empty. *)
Theorem loopStack_tracks_entered_loops (src : code) (clearTape : bool)
        (st : state) :
  Validate src = None ->
  (forall st1,
      Reach src (Run_start clearTape st) st1 ->
      loopStack st1 = enclosing src (index st1) ++ loopStack st /\
      (forall p, p ∈ enclosing src (index st1) <->
                 exists q, Matched src p q /\ p < index st1 <= q) /\
      NoDup (enclosing src (index st1)) /\
      len (loopStack st1) =
        len (enclosing src (index st1)) + len (loopStack st) /\
      forall fuel, step fuel src st1 <> Panic EmptyStackPop) /\
  (forall fuel st',
      Run fuel src clearTape st = Ok (None, st') ->
      loopStack st' = loopStack st /\
      (loopStack st' = [] <-> loopStack st = [])).
Proof.
  intros Hval.
  assert (Hstart : loopStack (Run_start clearTape st) = loopStack st).
  { unfold Run_start. destruct clearTape; reflexivity. }
  assert (Hidx0 : index (Run_start clearTape st) = 0) by reflexivity.
  destruct src as [| c0 src'].
  { (* the loop of the empty source has its first state only *)
    split.
    - intros st1 Hreach.
      assert (st1 = Run_start clearTape st) as ->.
      { destruct Hreach as [| s s' f _ Hstep _]; [reflexivity |].
        rewrite step_empty_source in Hstep. discriminate. }
      rewrite Hstart, Hidx0. cbn [enclosing pending_from take Z.to_nat app].
      repeat split.
      + intros Hin. inversion Hin.
      + intros (q & (pre & body & post & Heq & _) & _).
        destruct pre; discriminate.
      + constructor.
      + intros fuel. discriminate.
    - intros fuel st'. unfold Run. cbn [Validate Validate_loop Stack.empty].
      destruct fuel; discriminate. }
  set (src := c0 :: src') in *.
  assert (Hne : src <> []) by discriminate.
  split.
  - intros st1 Hreach.
    destruct (Reach_Inv src _ st1 Hval Hidx0 Hne Hreach) as [Hinv Hlt].
    pose proof Hinv as [Hrange Hstk].
    rewrite Hstart in Hstk.
    split; [exact Hstk | split; [| split; [| split]]].
    + intros p. split.
      * intros Hin. unfold enclosing in Hin.
        rewrite <- (take_drop (Z.to_nat (index st1)) src) in Hval |- *.
        destruct (pending_is_Matched _ _ p Hval Hin) as (q & Hm & Hq).
        exists q. split; [exact Hm |].
        unfold len in Hq, Hlt. rewrite length_take in Hq. lia.
      * intros (q & Hm & Hq). eapply Matched_is_pending; eassumption.
    + unfold enclosing.
      apply (pending_from_NoDup _ [] 0); [constructor |].
      intros x Hx. inversion Hx.
    + rewrite Hstk. unfold len. rewrite length_app. lia.
    + intros fuel Hpanic.
      pose proof (step_Inv fuel src _ st1 Hval Hinv Hlt) as Hs.
      rewrite Hpanic in Hs. destruct Hs; discriminate.
  - intros fuel st' Hrun. unfold Run in Hrun. rewrite Hval in Hrun.
    destruct (Run_loop fuel src (Run_start clearTape st)) as [st2 | |] eqn:Hloop;
      cbn [bind] in Hrun; try discriminate.
    injection Hrun as <-. cbn [loopStack emit].
    destruct (Run_loop_Reach fuel src _ _ st2 (Reach_start _ _) Hloop)
      as (st1 & fuel1 & Hreach & Hstep & Hend).
    destruct (Reach_Inv src _ st1 Hval Hidx0 Hne Hreach) as [Hinv Hlt].
    pose proof (step_Inv fuel1 src _ st1 Hval Hinv Hlt) as Hs.
    rewrite Hstep in Hs. destruct Hs as [Hrange Hstk].
    rewrite Hstart in Hstk.
    assert (Hsame : loopStack st2 = loopStack st).
    { rewrite Hstk.
      assert (index st2 = len src) as -> by lia.
      rewrite <- (app_nil_r src) at 1. rewrite enclosing_prefix.
      rewrite (Validate_none_pending _ Hval). reflexivity. }
    split; [exact Hsame | rewrite Hsame; tauto].
Qed.

Lemma loopStack_tracks_entered_loops_witness :
  loopStack (mkState [1] 0 2 [1; 7] [] []) =
    enclosing (src_of "+[-]") 2 ++ [7] /\
  (exists q, Matched (src_of "+[-]") 1 q /\ 1 < 2 <= q) /\
  loopStack (mkState [0] 0 4 [7] [] [PrintLine EmptyString]) = [7].
Proof.
  assert (Hreach : Reach (src_of "+[-]")
                     (Run_start false (mkState [0] 0 0 [7] [] []))
                     (mkState [1] 0 2 [1; 7] [] [])).
  { eapply (Reach_next _ _ (mkState [1] 0 1 [7] [] []) _ 0%nat);
      [| reflexivity | reflexivity].
    eapply (Reach_next _ _ (mkState [0] 0 0 [7] [] []) _ 0%nat);
      [| reflexivity | reflexivity].
    apply Reach_start. }
  destruct (loopStack_tracks_entered_loops (src_of "+[-]") false
              (mkState [0] 0 0 [7] [] []) eq_refl)
    as [Hloop Hend].
  destruct (Hloop _ Hreach) as (Hstk & Hmem & _).
  split; [exact Hstk | split].
  - apply (proj1 (Hmem 1)). vm_compute. apply elem_of_cons. left.
    reflexivity.
  - apply (proj1 (Hend 10%nat (mkState [0] 0 4 [7] [] [PrintLine EmptyString])
                       eq_refl)).
Defined.

(** ** Reads of the source *)

(** Outside the empty source the loop of [Run] keeps its reads inside the
    source: when an iteration of a run of a validated source starts, the
    instruction index is an offset of the source, the iteration (with the
    skip loop it may run) never reads past the end, and the index it leaves
    is at most the length, where the loop ends. *)
Theorem Run_nonempty_source_reads_in_range (src : code) (clearTape : bool)
        (st st1 : state) :
  Validate src = None ->
  src <> [] ->
  Reach src (Run_start clearTape st) st1 ->
  0 <= index st1 < len src /\
  forall fuel,
    step fuel src st1 <> Panic CodeIndexOutOfRange /\
    forall st2, step fuel src st1 = Ok st2 -> 0 <= index st2 <= len src.
Proof.
  intros Hval Hne Hreach.
  destruct (Reach_Inv src (Run_start clearTape st) st1 Hval eq_refl Hne Hreach)
    as [Hinv Hlt].
  split; [destruct Hinv; lia |].
  intros fuel.
  pose proof (step_Inv fuel src _ st1 Hval Hinv Hlt) as Hs.
  split.
  - intros Hpanic. rewrite Hpanic in Hs. destruct Hs; discriminate.
  - intros st2 Hstep. rewrite Hstep in Hs. apply Hs.
Qed.

(** * Further properties of the engine *)

(** ** Moves and cell arithmetic compose *)

Lemma set_pointer_same (st : state) : set_pointer (pointer st) st = st.
Proof. destruct st. reflexivity. Qed.

Lemma set_tape_same (st : state) : set_tape (tape st) st = st.
Proof. destruct st. reflexivity. Qed.

Lemma MoveRight_pointer (st : state) :
  0 <= pointer st < TapeLength ->
  MoveRight st = set_pointer ((pointer st + 1) mod TapeLength) st.
Proof.
  intros Hp. unfold MoveRight.
  destruct (Z.eqb_spec (pointer st) (TapeLength - 1)) as [H1 | H1].
  - rewrite H1. replace (TapeLength - 1 + 1) with (1 * TapeLength) by lia.
    rewrite Z.mod_mul by (unfold TapeLength; lia). reflexivity.
  - rewrite Z.mod_small by lia. reflexivity.
Qed.

Lemma MoveLeft_pointer (st : state) :
  0 <= pointer st < TapeLength ->
  MoveLeft st = set_pointer ((pointer st - 1) mod TapeLength) st.
Proof.
  intros Hp. unfold MoveLeft.
  destruct (Z.eqb_spec (pointer st) 0) as [H0 | H0].
  - rewrite H0. reflexivity.
  - rewrite Z.mod_small by lia. reflexivity.
Qed.

(** X1: inside the tape [MoveLeft] and [MoveRight] undo each other, also
    across the two ends of the tape. *)
Theorem moves_are_inverse (st : state) :
  0 <= pointer st < TapeLength ->
  MoveLeft (MoveRight st) = st /\ MoveRight (MoveLeft st) = st.
Proof.
  intros Hp. unfold MoveLeft, MoveRight.
  assert (HT : TapeLength = 30000) by reflexivity.
  destruct (Z.eqb_spec (pointer st) (TapeLength - 1)) as [H1 | H1];
    destruct (Z.eqb_spec (pointer st) 0) as [H0 | H0];
    cbn [pointer set_pointer];
    repeat match goal with
           | |- context [?a =? ?b] =>
               destruct (Z.eqb_spec a b); try lia
           end;
    destruct st as [t p i s inp out]; cbn in *; unfold set_pointer; cbn;
    split; f_equal; lia.
Qed.

Lemma moves_are_inverse_witness :
  MoveLeft (MoveRight (set_pointer 29999 (initial_state []))) =
    set_pointer 29999 (initial_state []) /\
  MoveRight (MoveLeft (initial_state [])) = initial_state [].
Proof.
  assert (H1 : 0 <= 29999 < TapeLength) by (unfold TapeLength; lia).
  assert (H0 : 0 <= 0 < TapeLength) by (unfold TapeLength; lia).
  split.
  - exact (proj1 (moves_are_inverse (set_pointer 29999 (initial_state [])) H1)).
  - exact (proj2 (moves_are_inverse (initial_state []) H0)).
Defined.

(** X2: [n] moves to the right from [p] end on [(p + n) mod TapeLength] and
    [n] moves to the left on [(p - n) mod TapeLength], nothing else being
    changed; [TapeLength] moves in one direction come back to the start. *)
Theorem moves_add_up (st : state) (n : nat) :
  0 <= pointer st < TapeLength ->
  Nat.iter n MoveRight st =
    set_pointer ((pointer st + Z.of_nat n) mod TapeLength) st /\
  Nat.iter n MoveLeft st =
    set_pointer ((pointer st - Z.of_nat n) mod TapeLength) st /\
  Nat.iter (Z.to_nat TapeLength) MoveRight st = st /\
  Nat.iter (Z.to_nat TapeLength) MoveLeft st = st.
Proof.
  intros Hp.
  assert (HT : 0 < TapeLength) by (unfold TapeLength; lia).
  assert (Hr : forall k, Nat.iter k MoveRight st =
                 set_pointer ((pointer st + Z.of_nat k) mod TapeLength) st).
  { induction k as [| k IH].
    - cbn [Nat.iter]. rewrite Z.add_0_r, Z.mod_small by lia.
      symmetry. apply set_pointer_same.
    - rewrite Nat.iter_succ, IH, MoveRight_pointer;
        cbn [pointer set_pointer]; [| apply Z.mod_pos_bound; lia].
      unfold set_pointer. cbn. f_equal.
      rewrite Z.add_mod_idemp_l by lia. f_equal. lia. }
  assert (Hl : forall k, Nat.iter k MoveLeft st =
                 set_pointer ((pointer st - Z.of_nat k) mod TapeLength) st).
  { induction k as [| k IH].
    - cbn [Nat.iter]. rewrite Z.sub_0_r, Z.mod_small by lia.
      symmetry. apply set_pointer_same.
    - rewrite Nat.iter_succ, IH, MoveLeft_pointer;
        cbn [pointer set_pointer]; [| apply Z.mod_pos_bound; lia].
      unfold set_pointer. cbn. f_equal.
      rewrite Zminus_mod_idemp_l. f_equal. lia. }
  split; [apply Hr | split; [apply Hl | split]].
  - rewrite Hr, Z2Nat.id by lia.
    replace (pointer st + TapeLength) with (pointer st + 1 * TapeLength) by lia.
    rewrite Z.mod_add, Z.mod_small by lia. apply set_pointer_same.
  - rewrite Hl, Z2Nat.id by lia.
    replace (pointer st - TapeLength)
      with (pointer st + (-1) * TapeLength) by lia.
    rewrite Z.mod_add, Z.mod_small by lia. apply set_pointer_same.
Qed.

Lemma moves_add_up_witness :
  Nat.iter 7 MoveLeft (set_pointer 2 (initial_state [])) =
  set_pointer 29995 (initial_state []).
Proof.
  assert (H : 0 <= pointer (set_pointer 2 (initial_state [])) < TapeLength)
    by (cbn; unfold TapeLength; lia).
  exact (proj1 (proj2 (moves_add_up (set_pointer 2 (initial_state [])) 7 H))).
Defined.

Lemma at_index_lookup {A : Type} (l : list A) (i : Z) (x : A) :
  at_index l i = Some x -> l !! Z.to_nat i = Some x.
Proof. unfold at_index. destruct (i <? 0); [discriminate | auto]. Qed.

Lemma store_same_place (v w : Z) (st : state) (x : Z) :
  at_index (tape st) (pointer st) = Some x ->
  (do st' <- store v st ; store w st') = store w st.
Proof.
  intros Hx. unfold store. rewrite Hx. cbn [bind tape pointer set_tape].
  rewrite (at_index_insert _ _ x v Hx).
  unfold set_tape. cbn. rewrite list_insert_insert_eq. reflexivity.
Qed.

Lemma store_old_value (st : state) (x : Z) :
  at_index (tape st) (pointer st) = Some x -> store x st = Ok st.
Proof.
  intros Hx. unfold store. rewrite Hx.
  rewrite list_insert_id by (apply at_index_lookup; exact Hx).
  rewrite set_tape_same. reflexivity.
Qed.

Lemma Increment_value (st : state) (v : Z) :
  at_index (tape st) (pointer st) = Some v ->
  Increment st = store ((v + 1) mod 256) st.
Proof. intros Hv. unfold Increment, cell. rewrite Hv. reflexivity. Qed.

Lemma Decrement_value (st : state) (v : Z) :
  at_index (tape st) (pointer st) = Some v ->
  Decrement st = store ((v - 1) mod 256) st.
Proof. intros Hv. unfold Decrement, cell. rewrite Hv. reflexivity. Qed.

Lemma store_cell (v : Z) (st st' : state) :
  store v st = Ok st' ->
  at_index (tape st') (pointer st') = Some v.
Proof.
  unfold store. destruct (at_index (tape st) (pointer st)) as [x |] eqn:Hx;
    [| discriminate].
  intros [= <-]. cbn [tape pointer set_tape].
  eapply at_index_insert. exact Hx.
Qed.

Lemma store_succeeds (v : Z) (st : state) (x : Z) :
  at_index (tape st) (pointer st) = Some x ->
  exists st', store v st = Ok st'.
Proof. intros Hx. unfold store. rewrite Hx. eauto. Qed.

(** X3: on a cell that holds a byte, [Decrement] undoes [Increment] and
    [Increment] undoes [Decrement]: the state is the one before, also when
    the cell wrapped in between. *)
Theorem increment_decrement_are_inverse (st : state) (v : Z) :
  at_index (tape st) (pointer st) = Some v ->
  0 <= v <= 255 ->
  (do st' <- Increment st ; Decrement st') = Ok st /\
  (do st' <- Decrement st ; Increment st') = Ok st.
Proof.
  intros Hv Hrange. split.
  - rewrite (Increment_value st v Hv).
    destruct (store_succeeds ((v + 1) mod 256) st v Hv) as [st1 Hs].
    pose proof (store_same_place ((v + 1) mod 256)
                  (((v + 1) mod 256 - 1) mod 256) st v Hv) as E.
    rewrite Hs in E |- *. cbn [bind] in E |- *.
    rewrite (Decrement_value st1 _ (store_cell _ _ _ Hs)), E.
    rewrite Zminus_mod_idemp_l. replace (v + 1 - 1) with v by lia.
    rewrite Z.mod_small by lia. apply store_old_value. exact Hv.
  - rewrite (Decrement_value st v Hv).
    destruct (store_succeeds ((v - 1) mod 256) st v Hv) as [st1 Hs].
    pose proof (store_same_place ((v - 1) mod 256)
                  (((v - 1) mod 256 + 1) mod 256) st v Hv) as E.
    rewrite Hs in E |- *. cbn [bind] in E |- *.
    rewrite (Increment_value st1 _ (store_cell _ _ _ Hs)), E.
    rewrite Z.add_mod_idemp_l by lia. replace (v - 1 + 1) with v by lia.
    rewrite Z.mod_small by lia. apply store_old_value. exact Hv.
Qed.

Lemma increment_decrement_are_inverse_witness :
  (do st' <- Increment (mkState [3; 255] 1 0 [] [] []) ; Decrement st') =
  Ok (mkState [3; 255] 1 0 [] [] []).
Proof.
  assert (H : 0 <= 255 <= 255) by lia.
  exact (proj1 (increment_decrement_are_inverse
                  (mkState [3; 255] 1 0 [] [] []) 255 eq_refl H)).
Defined.

(** X4: [n] increments of a cell that holds the byte [v] leave
    [(v + n) mod 256] in it and change nothing else, and [n] decrements
    leave [(v - n) mod 256]; 256 of either give back the state. *)
Theorem cell_arithmetic_adds_up (st : state) (v : Z) (n : nat) :
  at_index (tape st) (pointer st) = Some v ->
  0 <= v <= 255 ->
  repeat_op n Increment st = store ((v + Z.of_nat n) mod 256) st /\
  repeat_op n Decrement st = store ((v - Z.of_nat n) mod 256) st /\
  repeat_op 256 Increment st = Ok st /\
  repeat_op 256 Decrement st = Ok st.
Proof.
  intros Hv Hrange.
  assert (Hi : forall k s w,
             at_index (tape s) (pointer s) = Some w ->
             0 <= w <= 255 ->
             repeat_op k Increment s = store ((w + Z.of_nat k) mod 256) s).
  { induction k as [| k IH]; intros s w Hw Hr.
    - cbn [repeat_op]. rewrite Z.add_0_r, Z.mod_small by lia.
      symmetry. apply store_old_value. exact Hw.
    - cbn [repeat_op]. rewrite (Increment_value s w Hw).
      destruct (store_succeeds ((w + 1) mod 256) s w Hw) as [s1 Hs1].
      pose proof (store_same_place ((w + 1) mod 256)
                    (((w + 1) mod 256 + Z.of_nat k) mod 256) s w Hw) as E.
      rewrite Hs1 in E |- *. cbn [bind] in E |- *.
      rewrite (IH s1 _ (store_cell _ _ _ Hs1))
        by (pose proof (Z.mod_pos_bound (w + 1) 256); lia).
      rewrite E, Z.add_mod_idemp_l by lia. do 2 f_equal. lia. }
  assert (Hd : forall k s w,
             at_index (tape s) (pointer s) = Some w ->
             0 <= w <= 255 ->
             repeat_op k Decrement s = store ((w - Z.of_nat k) mod 256) s).
  { induction k as [| k IH]; intros s w Hw Hr.
    - cbn [repeat_op]. rewrite Z.sub_0_r, Z.mod_small by lia.
      symmetry. apply store_old_value. exact Hw.
    - cbn [repeat_op]. rewrite (Decrement_value s w Hw).
      destruct (store_succeeds ((w - 1) mod 256) s w Hw) as [s1 Hs1].
      pose proof (store_same_place ((w - 1) mod 256)
                    (((w - 1) mod 256 - Z.of_nat k) mod 256) s w Hw) as E.
      rewrite Hs1 in E |- *. cbn [bind] in E |- *.
      rewrite (IH s1 _ (store_cell _ _ _ Hs1))
        by (pose proof (Z.mod_pos_bound (w - 1) 256); lia).
      rewrite E, Zminus_mod_idemp_l. do 2 f_equal. lia. }
  split; [apply Hi; assumption | split; [apply Hd; assumption | split]].
  - rewrite (Hi 256%nat st v Hv Hrange).
    replace (v + Z.of_nat 256) with (v + 1 * 256) by lia.
    rewrite Z.mod_add, Z.mod_small by lia. apply store_old_value. exact Hv.
  - rewrite (Hd 256%nat st v Hv Hrange).
    replace (v - Z.of_nat 256) with (v + (-1) * 256) by lia.
    rewrite Z.mod_add, Z.mod_small by lia. apply store_old_value. exact Hv.
Qed.

Lemma cell_arithmetic_adds_up_witness :
  repeat_op 5 Increment (mkState [253] 0 0 [] [] []) =
  Ok (mkState [2] 0 0 [] [] []).
Proof.
  assert (H : 0 <= 253 <= 255) by lia.
  exact (proj1 (cell_arithmetic_adds_up
                  (mkState [253] 0 0 [] [] []) 253 5 eq_refl H)).
Defined.

(** ** More on validation *)

Lemma excess_cons (c : ascii) (l : code) :
  excess (c :: l) =
  (if (c =? "[")%char then 1 else if (c =? "]")%char then -1 else 0)
  + excess l.
Proof. reflexivity. Qed.

(** What each answer of the scan says about the counts of brackets. *)
Lemma Validate_loop_counts (l : code) :
  forall stk i,
    (Validate_loop stk i l = None ->
     len stk + excess l = 0 /\
     forall k, 0 <= len stk + excess (take k l)) /\
    (Validate_loop stk i l = Some UnmatchedClose ->
     exists k, len stk + excess (take k l) < 0) /\
    (Validate_loop stk i l = Some UnmatchedOpen ->
     0 < len stk + excess l /\
     forall k, 0 <= len stk + excess (take k l)).
Proof.
  induction l as [| c l IH]; intros stk i.
  - assert (Hk : forall k : nat, excess (take k []) = 0)
      by (intros [| k]; reflexivity).
    destruct stk as [| x stk].
    + change (Validate_loop [] i []) with (@None error).
      change (len (@nil Z)) with 0.
      split; [| split]; try discriminate.
      intros _. split; [reflexivity |]. intros k. rewrite Hk. lia.
    + rewrite Validate_loop_end_pending. len_simpl.
      pose proof (len_nonneg stk).
      split; [| split]; try discriminate.
      intros _. cbn [excess]. split; [lia |]. intros k. rewrite Hk. lia.
  - cbn [Validate_loop]. rewrite excess_cons.
    case_char c "["%char; [| case_char c "]"%char].
    + destruct (IH (Stack.Push i stk) (i + 1)) as (Hn & Hc & Ho).
      unfold Stack.Push in *. rewrite len_cons in Hn, Hc, Ho.
      pose proof (len_nonneg stk).
      split; [| split].
      * intros H'. destruct (Hn H') as [He Hp]. split; [lia |].
        intros [| k]; cbn [take excess Ascii.eqb Bool.eqb]; [lia |].
        specialize (Hp k). lia.
      * intros H'. destruct (Hc H') as [k Hk]. exists (S k).
        cbn [take excess Ascii.eqb Bool.eqb]. lia.
      * intros H'. destruct (Ho H') as [He Hp]. split; [lia |].
        intros [| k]; cbn [take excess Ascii.eqb Bool.eqb]; [lia |].
        specialize (Hp k). lia.
    + destruct stk as [| x stk]; cbn [Stack.Pop].
      * repeat split; try discriminate.
        intros _. exists 1%nat. change (len (@nil Z)) with 0.
        cbn [take excess Ascii.eqb Bool.eqb]. rewrite take_0.
        cbn [excess]. lia.
      * destruct (IH stk (i + 1)) as (Hn & Hc & Ho).
        rewrite len_cons. pose proof (len_nonneg stk).
        split; [| split].
        -- intros H'. destruct (Hn H') as [He Hp]. split; [lia |].
           intros [| k]; cbn [take excess Ascii.eqb Bool.eqb]; [lia |].
           specialize (Hp k). lia.
        -- intros H'. destruct (Hc H') as [k Hk]. exists (S k).
           cbn [take excess Ascii.eqb Bool.eqb]. lia.
        -- intros H'. destruct (Ho H') as [He Hp]. split; [lia |].
           intros [| k]; cbn [take excess Ascii.eqb Bool.eqb]; [lia |].
           specialize (Hp k). lia.
    + destruct (IH stk (i + 1)) as (Hn & Hc & Ho).
      pose proof (len_nonneg stk).
      assert (Hex : forall k, excess (take (S k) (c :: l)) = excess (take k l)).
      { intros k. cbn [take excess].
        destruct (Ascii.eqb_spec c "["%char); [congruence |].
        destruct (Ascii.eqb_spec c "]"%char); [congruence |]. lia. }
      split; [| split].
      * intros H'. destruct (Hn H') as [He Hp]. split; [lia |].
        intros [| k]; [cbn; lia |]. rewrite Hex. apply Hp.
      * intros H'. destruct (Hc H') as [k Hk]. exists (S k).
        rewrite Hex. exact Hk.
      * intros H'. destruct (Ho H') as [He Hp]. split; [lia |].
        intros [| k]; [cbn; lia |]. rewrite Hex. apply Hp.
Qed.

(** X5: the three answers of [Validate], by counting.  It accepts exactly
    when the source has as many ["["] as ["]"] and no prefix has more ["]"]
    than ["["]; it answers [UnmatchedClose] exactly when some prefix has more
    ["]"] than ["["]; it answers [UnmatchedOpen] exactly when no prefix has
    and the whole source has more ["["] than ["]"]. *)
Theorem Validate_by_counting (src : code) :
  (Validate src = None <->
   excess src = 0 /\ forall k, 0 <= excess (take k src)) /\
  (Validate src = Some UnmatchedClose <->
   exists k, excess (take k src) < 0) /\
  (Validate src = Some UnmatchedOpen <->
   0 < excess src /\ forall k, 0 <= excess (take k src)).
Proof.
  destruct (Validate_loop_counts src Stack.empty 0) as (Hn & Hc & Ho).
  fold (Validate src) in Hn, Hc, Ho.
  change (len Stack.empty) with 0 in Hn, Hc, Ho.
  assert (Hn' : Validate src = None ->
                excess src = 0 /\ forall k, 0 <= excess (take k src)).
  { intros H. destruct (Hn H) as [He Hp]. split; [lia |].
    intros k. specialize (Hp k). lia. }
  assert (Hc' : Validate src = Some UnmatchedClose ->
                exists k, excess (take k src) < 0).
  { intros H. destruct (Hc H) as [k Hk]. exists k. lia. }
  assert (Ho' : Validate src = Some UnmatchedOpen ->
                0 < excess src /\ forall k, 0 <= excess (take k src)).
  { intros H. destruct (Ho H) as [He Hp]. split; [lia |].
    intros k. specialize (Hp k). lia. }
  clear Hn Hc Ho.
  destruct (Validate_outcomes Stack.empty 0 src) as [H | [H | H]];
    fold (Validate src) in H.
  - destruct (Hn' H) as [He Hp]. rewrite H.
    split; [tauto | split]; (split; [discriminate |]).
    + intros [k Hk]. specialize (Hp k). lia.
    + intros [Hpos _]. lia.
  - destruct (Hc' H) as [k Hk]. rewrite H.
    split; [| split; [split; eauto |]]; (split; [discriminate |]).
    + intros [_ Hp]. specialize (Hp k). lia.
    + intros [_ Hp]. specialize (Hp k). lia.
  - destruct (Ho' H) as [He Hp]. rewrite H.
    split; [| split; [| tauto]]; (split; [discriminate |]).
    + intros [H0 _]. lia.
    + intros [k Hk]. specialize (Hp k). lia.
Qed.

(** The answer of the scan depends on its stack through its depth only. *)
Lemma Validate_loop_depth (l : code) :
  forall stk stk' i i',
    length stk = length stk' ->
    Validate_loop stk i l = Validate_loop stk' i' l.
Proof.
  induction l as [| c l IH]; intros stk stk' i i' Hlen.
  - cbn. unfold Stack.Length, len. rewrite Hlen. reflexivity.
  - cbn [Validate_loop].
    case_char c "["%char; [apply IH; cbn; lia |].
    case_char c "]"%char; [| apply IH; exact Hlen].
    destruct stk, stk'; cbn in Hlen; try lia; cbn [Stack.Pop];
      [reflexivity | apply IH; lia].
Qed.

Lemma Validate_loop_filter (l : code) :
  forall stk i i',
    Validate_loop stk i l = Validate_loop stk i' (List.filter is_bracket l).
Proof.
  induction l as [| c l IH]; intros stk i i'; [reflexivity |].
  cbn [Validate_loop List.filter]. unfold is_bracket.
  case_char c "["%char.
  - cbn [orb Validate_loop Ascii.eqb Bool.eqb].
    rewrite (IH _ (i + 1) (i' + 1)).
    apply Validate_loop_depth. reflexivity.
  - case_char c "]"%char.
    + cbn [orb Validate_loop Ascii.eqb Bool.eqb].
      destruct stk as [| x stk]; cbn [Stack.Pop]; [reflexivity | apply IH].
    + cbn [orb]. apply IH.
Qed.

(** X6: [Validate] looks at the brackets only: a source and the text of
    its brackets get the same answer, so two sources with the same brackets
    in the same order are accepted or rejected alike. *)
Theorem Validate_depends_on_brackets_only (src : code) :
  Validate src = Validate (List.filter is_bracket src) /\
  forall src',
    List.filter is_bracket src = List.filter is_bracket src' ->
    Validate src = Validate src'.
Proof.
  assert (H : forall s, Validate s = Validate (List.filter is_bracket s)).
  { intros s. apply Validate_loop_filter. }
  split; [apply H |].
  intros src' Heq. rewrite (H src), (H src'), Heq. reflexivity.
Qed.

Lemma Validate_loop_append_Balanced (b : code) :
  Balanced b ->
  forall a stk i, Validate_loop stk i (a ++ b) = Validate_loop stk i a.
Proof.
  intros Hb. induction a as [| c a IH]; intros stk i.
  - cbn [app]. rewrite <- (app_nil_r b) at 1.
    rewrite (Validate_loop_Balanced b Hb). reflexivity.
  - cbn [app Validate_loop].
    case_char c "["%char; [apply IH |].
    case_char c "]"%char; [| apply IH].
    destruct (Stack.Pop stk) as [[x s] |]; [apply IH | reflexivity].
Qed.

(** X7: a validated text neither helps nor harms the text it is joined
    to: put in front of a source or behind it, it leaves the answer of
    [Validate] on that source as it is. *)
Theorem Validate_ignores_validated_part (a b : code) :
  Validate a = None ->
  Validate (a ++ b) = Validate b /\ Validate (b ++ a) = Validate b.
Proof.
  intros Ha.
  assert (Hbal : Balanced a).
  { apply (Validate_loop_accepts (length a) a 0 (le_n _)). exact Ha. }
  unfold Validate. split.
  - rewrite (Validate_loop_Balanced a Hbal).
    apply Validate_loop_depth. reflexivity.
  - apply Validate_loop_append_Balanced. exact Hbal.
Qed.

Lemma Validate_ignores_validated_part_witness :
  Validate (src_of "+[-]" ++ src_of "]") = Some UnmatchedClose /\
  Validate (src_of "[" ++ src_of "+[-]") = Some UnmatchedOpen.
Proof.
  destruct (Validate_ignores_validated_part (src_of "+[-]") (src_of "]")
              eq_refl) as [H1 _].
  destruct (Validate_ignores_validated_part (src_of "+[-]") (src_of "[")
              eq_refl) as [_ H2].
  split; [rewrite H1 | rewrite H2]; reflexivity.
Defined.

(** ** The window of [FormatCells] *)

Lemma cells_between_empty (t : list Z) (i j : Z) :
  j <= i -> cells_between t i j = [].
Proof. intros H. unfold cells_between. rewrite seqZ_nil by lia. reflexivity. Qed.

Lemma cells_between_first (t : list Z) (i j v : Z) :
  i < j -> at_index t i = Some v ->
  cells_between t i j = (i, v) :: cells_between t (i + 1) j.
Proof.
  intros H Hv. unfold cells_between. rewrite seqZ_cons by lia.
  cbn [map]. rewrite Hv. cbn [default].
  replace (Z.pred (j - i)) with (j - (i + 1)) by lia. reflexivity.
Qed.

Lemma cells_between_length (t : list Z) (i j : Z) :
  i <= j -> len (cells_between t i j) = j - i.
Proof.
  intros H. unfold cells_between, len. rewrite length_map, length_seqZ. lia.
Qed.

Lemma at_index_in_range {A : Type} (l : list A) (i : Z) :
  0 <= i < len l -> exists x, at_index l i = Some x.
Proof.
  intros Hi. destruct (at_index l i) as [x |] eqn:E; [eauto |].
  apply at_index_None in E. lia.
Qed.

Lemma FormatCells_loop_here (fuel : nat) (t : list Z) (i : Z) :
  FormatCells_loop fuel t i i = Ok [].
Proof. destruct fuel; cbn [FormatCells_loop]; rewrite Z.eqb_refl; reflexivity. Qed.

(** The loop from [i] up to [stop], when no wrap is needed. *)
Lemma FormatCells_loop_straight (t : list Z) (stop : Z) (n : nat) :
  len t = TapeLength ->
  stop <= TapeLength ->
  forall i fuel,
    0 <= i <= stop ->
    Z.to_nat (stop - i) = n ->
    (n <= fuel)%nat ->
    FormatCells_loop fuel t i stop = Ok (cells_between t i stop).
Proof.
  intros Hlen Hstop. induction n as [| n IH]; intros i fuel Hi Hn Hfuel.
  - assert (i = stop) as -> by lia.
    rewrite FormatCells_loop_here, cells_between_empty by lia. reflexivity.
  - destruct fuel as [| fuel]; [lia |]. cbn [FormatCells_loop].
    destruct (Z.eqb_spec i stop) as [-> | _]; [lia |].
    destruct (Z.geb_spec i TapeLength) as [Hge | _]; [lia |].
    destruct (at_index_in_range t i ltac:(lia)) as [v Hv]. rewrite Hv.
    rewrite (IH (i + 1) fuel) by lia. cbn [bind].
    rewrite (cells_between_first t i stop v) by (lia || exact Hv).
    reflexivity.
Qed.

(** The loop from [i] over the end of the tape and on to [stop]. *)
Lemma FormatCells_loop_wrap (t : list Z) (stop : Z) (n : nat) :
  len t = TapeLength ->
  1 <= stop ->
  forall i fuel,
    stop < i <= TapeLength ->
    Z.to_nat (TapeLength - i) = n ->
    (n + Z.to_nat stop <= fuel)%nat ->
    FormatCells_loop fuel t i stop =
    Ok (cells_between t i TapeLength ++ cells_between t 0 stop).
Proof.
  intros Hlen Hstop.
  assert (HT : 0 < TapeLength) by (unfold TapeLength; lia).
  induction n as [| n IH]; intros i fuel Hi Hn Hfuel.
  - assert (i = TapeLength) as -> by lia.
    destruct fuel as [| fuel]; [lia |]. cbn [FormatCells_loop].
    destruct (Z.eqb_spec TapeLength stop) as [E | _]; [lia |].
    destruct (Z.geb_spec TapeLength TapeLength) as [_ | Hlt]; [| lia].
    destruct (at_index_in_range t 0 ltac:(lia)) as [v Hv]. rewrite Hv.
    rewrite (FormatCells_loop_straight t stop (Z.to_nat (stop - 1)) Hlen
               ltac:(lia) (0 + 1) fuel); [| lia ..].
    cbn [bind]. rewrite (cells_between_empty t TapeLength TapeLength) by lia.
    rewrite (cells_between_first t 0 stop v) by (lia || exact Hv).
    reflexivity.
  - destruct fuel as [| fuel]; [lia |]. cbn [FormatCells_loop].
    destruct (Z.eqb_spec i stop) as [-> | _]; [lia |].
    destruct (Z.geb_spec i TapeLength) as [Hge | _]; [lia |].
    destruct (at_index_in_range t i ltac:(lia)) as [v Hv]. rewrite Hv.
    rewrite (IH (i + 1) fuel) by lia. cbn [bind].
    rewrite (cells_between_first t i TapeLength v) by (lia || exact Hv).
    reflexivity.
Qed.



(** X9: a window that starts inside the tape and ends beyond its last cell
    ([TapeLength <= end], and short enough not to come round to [start])
    goes on from cell 0: the cells [start] to [TapeLength - 1], then 0 to
    [end - TapeLength], again [end - start + 1] cells. *)
Theorem FormatCells_window_over_end (fuel : nat) (start end_ : Z)
        (st : state) :
  len (tape st) = TapeLength ->
  0 <= start < TapeLength ->
  TapeLength <= end_ ->
  end_ - TapeLength + 1 < start ->
  (Z.to_nat (end_ - start + 1) <= fuel)%nat ->
  FormatCells_cells fuel start end_ st =
    Ok (cells_between (tape st) start TapeLength ++
        cells_between (tape st) 0 (end_ - TapeLength + 1)) /\
  len (cells_between (tape st) start TapeLength ++
       cells_between (tape st) 0 (end_ - TapeLength + 1)) = end_ - start + 1.
Proof.
  intros Hlen Hs He Hse Hfuel. split.
  - unfold FormatCells_cells.
    destruct (Z.ltb_spec start 0) as [Hneg | _]; [lia |].
    destruct (Z.geb_spec end_ TapeLength) as [_ | Hlt]; [| lia].
    apply (FormatCells_loop_wrap _ _ (Z.to_nat (TapeLength - start)));
      try lia; assumption.
  - rewrite len_app, !cells_between_length by lia. lia.
Qed.

Lemma FormatCells_window_over_end_witness :
  FormatCells_cells 11 (29997 - 5) (29997 + 5)
                    (set_pointer 29997 (initial_state [])) =
  Ok (cells_between (tape (initial_state [])) 29992 30000 ++
      cells_between (tape (initial_state [])) 0 3).
Proof.
  assert (HT : TapeLength = 30000) by reflexivity.
  assert (H0 : 0 <= 29997 - 5 < TapeLength) by lia.
  assert (H1 : TapeLength <= 29997 + 5) by lia.
  assert (H2 : 29997 + 5 - TapeLength + 1 < 29997 - 5) by lia.
  assert (H3 : (Z.to_nat (29997 + 5 - (29997 - 5) + 1) <= 11)%nat) by lia.
  assert (Hlen : len (tape (set_pointer 29997 (initial_state []))) = TapeLength)
    by (vm_compute; reflexivity).
  exact (proj1 (FormatCells_window_over_end 11 (29997 - 5) (29997 + 5)
                  (set_pointer 29997 (initial_state [])) Hlen H0 H1 H2 H3)).
Defined.

(** X10: a window that starts before cell 0 ([start < 0], with [end] inside
    the tape and the window short enough not to overlap itself) begins at
    cell [TapeLength + start - 1]: it shows the cells from there to the last
    one, then 0 to [end], which is [end - start + 2] cells, one more than
    the [end - start + 1] asked for. *)
Theorem FormatCells_window_before_start (fuel : nat) (start end_ : Z)
        (st : state) :
  len (tape st) = TapeLength ->
  start < 0 ->
  0 <= end_ ->
  end_ + 1 < TapeLength + start - 1 ->
  (Z.to_nat (end_ - start + 2) <= fuel)%nat ->
  FormatCells_cells fuel start end_ st =
    Ok (cells_between (tape st) (TapeLength + start - 1) TapeLength ++
        cells_between (tape st) 0 (end_ + 1)) /\
  len (cells_between (tape st) (TapeLength + start - 1) TapeLength ++
       cells_between (tape st) 0 (end_ + 1)) = end_ - start + 2.
Proof.
  intros Hlen Hs He Hse Hfuel. split.
  - unfold FormatCells_cells.
    destruct (Z.ltb_spec start 0) as [_ | Hpos]; [| lia].
    destruct (Z.geb_spec end_ TapeLength) as [Hge | _]; [lia |].
    apply (FormatCells_loop_wrap _ _
             (Z.to_nat (TapeLength - (TapeLength + start - 1))));
      try lia; assumption.
  - rewrite len_app, !cells_between_length by lia. lia.
Qed.

Lemma FormatCells_window_before_start_witness :
  FormatCells_cells 12 (3 - 5) (3 + 5) (set_pointer 3 (initial_state [])) =
  Ok (cells_between (tape (initial_state [])) 29997 30000 ++
      cells_between (tape (initial_state [])) 0 9).
Proof.
  assert (HT : TapeLength = 30000) by reflexivity.
  assert (H0 : 3 - 5 < 0) by lia.
  assert (H1 : 0 <= 3 + 5) by lia.
  assert (H2 : 3 + 5 + 1 < TapeLength + (3 - 5) - 1) by lia.
  assert (H3 : (Z.to_nat (3 + 5 - (3 - 5) + 2) <= 12)%nat) by lia.
  assert (Hlen : len (tape (set_pointer 3 (initial_state []))) = TapeLength)
    by (vm_compute; reflexivity).
  exact (proj1 (FormatCells_window_before_start 12 (3 - 5) (3 + 5)
                  (set_pointer 3 (initial_state [])) Hlen H0 H1 H2 H3)).
Defined.

(** X11: [!! printn] with a count whose half is at least [TapeLength] plus
    the pointer makes the interpreter panic: the window then starts so far
    before cell 0 that its adjusted start is still negative, and the first
    cell read is out of the tape. *)
Theorem printn_oversized_panics (fuel : nat) (arg : string) (n : Z)
        (st : state) :
  0 <= pointer st ->
  Atoi arg = Some n ->
  TapeLength + pointer st <= n ÷ 2 ->
  RunSpecialInstruction (S fuel) ["printn"%string; arg] st =
  Panic TapeIndexOutOfRange.
Proof.
  intros Hp Harg Hn. unfold RunSpecialInstruction.
  cbn [lookup list_lookup String.eqb Ascii.eqb Bool.eqb].
  rewrite Harg. unfold FormatCells, FormatCells_cells.
  assert (HT : 0 < TapeLength) by (unfold TapeLength; lia).
  destruct (Z.ltb_spec (pointer st - n ÷ 2) 0) as [_ | Hpos]; [| lia].
  destruct (Z.geb_spec (pointer st + n ÷ 2) TapeLength) as [_ | Hlt]; [| lia].
  cbn [FormatCells_loop].
  destruct (Z.eqb_spec (TapeLength + (pointer st - n ÷ 2) - 1)
                       (pointer st + n ÷ 2 - TapeLength + 1)) as [E | _];
    [lia |].
  destruct (Z.geb_spec (TapeLength + (pointer st - n ÷ 2) - 1) TapeLength)
    as [Hge | _]; [lia |].
  rewrite (proj2 (at_index_None (tape st) _)) by lia.
  reflexivity.
Qed.

Lemma printn_oversized_panics_witness :
  RunSpecialInstruction 1 ["printn"%string; "60000"%string] (initial_state []) =
  Panic TapeIndexOutOfRange.
Proof.
  assert (H0 : 0 <= pointer (initial_state [])) by (cbn; lia).
  assert (H1 : TapeLength + pointer (initial_state []) <= 60000 ÷ 2)
    by (vm_compute; discriminate).
  exact (printn_oversized_panics 0 "60000" 60000 (initial_state [])
           H0 eq_refl H1).
Defined.

(** A validated one-line program that stops the interpreter that way. *)
Example Run_printn_oversized :
  Validate (src_of "!! printn60000") = None /\
  Run 2 (src_of "!! printn60000") true (initial_state []) =
  Panic TapeIndexOutOfRange.
Proof. split; vm_compute; reflexivity. Qed.

Lemma FormatCells_loop_unreachable (t : list Z) (stop : Z) :
  len t = TapeLength ->
  stop <= 0 ->
  forall fuel i,
    0 < i <= TapeLength ->
    FormatCells_loop fuel t i stop = OutOfFuel.
Proof.
  intros Hlen Hstop.
  assert (HT : 0 < TapeLength) by (unfold TapeLength; lia).
  induction fuel as [| fuel IH]; intros i Hi; cbn [FormatCells_loop];
    destruct (Z.eqb_spec i stop) as [E | _]; try lia; [reflexivity |].
  destruct (Z.geb_spec i TapeLength) as [Hge | Hlt].
  - destruct (at_index_in_range t 0 ltac:(lia)) as [v ->].
    rewrite IH by lia. reflexivity.
  - destruct (at_index_in_range t i ltac:(lia)) as [v ->].
    rewrite IH by lia. reflexivity.
Qed.

(** X12: [FormatCells] does not return on a window that starts inside the
    tape, after cell 0, and ends before cell 0: its index walks round the
    tape for ever without meeting [end + 1], so no amount of fuel yields a
    result. *)
Theorem FormatCells_negative_end_diverges (start end_ : Z) (st : state) :
  len (tape st) = TapeLength ->
  0 < start < TapeLength ->
  end_ < 0 ->
  forall fuel,
    FormatCells_cells fuel start end_ st = OutOfFuel /\
    FormatCells fuel start end_ st = OutOfFuel.
Proof.
  intros Hlen Hs He fuel.
  assert (H : FormatCells_cells fuel start end_ st = OutOfFuel).
  { unfold FormatCells_cells.
    destruct (Z.ltb_spec start 0) as [Hneg | _]; [lia |].
    destruct (Z.geb_spec end_ TapeLength) as [Hge | _];
      [unfold TapeLength in Hge; lia |].
    apply FormatCells_loop_unreachable; [assumption | lia | lia]. }
  split; [exact H |]. unfold FormatCells. rewrite H. reflexivity.
Qed.

Lemma FormatCells_negative_end_diverges_witness :
  FormatCells 1000 3 (-1) (initial_state []) = OutOfFuel.
Proof.
  assert (Hlen : len (tape (initial_state [])) = TapeLength)
    by (vm_compute; reflexivity).
  assert (H0 : 0 < 3 < TapeLength) by (unfold TapeLength; lia).
  assert (H1 : -1 < 0) by lia.
  exact (proj2 (FormatCells_negative_end_diverges 3 (-1) (initial_state [])
                  Hlen H0 H1 1000%nat)).
Defined.

(** ** The pattern of the special instructions *)

Lemma take_drop_while (p : ascii -> bool) (l : code) :
  take_while p l ++ drop_while p l = l.
Proof.
  induction l as [| c l IH]; [reflexivity |]. cbn.
  destruct (p c); [cbn; rewrite IH |]; reflexivity.
Qed.

Lemma take_while_Forall (p : ascii -> bool) (l : code) :
  Forall (fun c => p c = true) (take_while p l).
Proof.
  induction l as [| c l IH]; [constructor |]. cbn.
  destruct (p c) eqn:E; constructor; assumption.
Qed.

Lemma drop_while_head (p : ascii -> bool) (l : code) :
  match drop_while p l with c :: _ => p c = false | [] => True end.
Proof.
  induction l as [| c l IH]; [exact I |]. cbn.
  destruct (p c) eqn:E; [exact IH | exact E].
Qed.

(** The longest run is the only run that stops on a character outside the
    class. *)
Lemma take_drop_while_unique (p : ascii -> bool) (a b : code) :
  Forall (fun c => p c = true) a ->
  match b with c :: _ => p c = false | [] => True end ->
  take_while p (a ++ b) = a /\ drop_while p (a ++ b) = b.
Proof.
  intros Ha Hb. induction Ha as [| c a Hc Ha IH].
  - destruct b as [| c b]; [split; reflexivity |]. cbn. rewrite Hb.
    split; reflexivity.
  - cbn. rewrite Hc. destruct IH as [-> ->]. split; reflexivity.
Qed.

Lemma lower_is_no_digit (c : ascii) : is_digit c = true -> is_lower c = false.
Proof.
  unfold is_digit, is_lower. intros H.
  apply andb_prop in H. destruct H as [_ H%N.leb_le].
  apply andb_false_intro1. apply N.leb_gt. lia.
Qed.

Lemma SpecialInstructionRegex_of_parts (name digits rest : code) :
  name <> [] ->
  Forall (fun c => is_lower c = true) name ->
  Forall (fun c => is_digit c = true) digits ->
  match digits ++ rest with c :: _ => is_lower c = false | [] => True end ->
  match rest with c :: _ => is_digit c = false | [] => True end ->
  SpecialInstructionRegex (src_of "!! " ++ name ++ digits ++ rest) =
  Some [string_of_list_ascii (src_of "!! " ++ name ++ digits);
        string_of_list_ascii name;
        string_of_list_ascii digits].
Proof.
  intros Hne Hlow Hdig Hstop1 Hstop2.
  unfold SpecialInstructionRegex.
  cbn [src_of list_ascii_of_string app Ascii.eqb Bool.eqb andb].
  destruct (take_drop_while_unique is_lower name (digits ++ rest) Hlow Hstop1)
    as [-> ->].
  destruct (take_drop_while_unique is_digit digits rest Hdig Hstop2)
    as [-> _].
  destruct name as [| n0 name']; [congruence |]. reflexivity.
Qed.

(** X13: what [SpecialInstructionRegex] matches.  A text matches exactly
    when it starts with [!! ] followed by a non-empty run of lowercase
    letters; the first group is the longest such run, the second the longest
    run of digits right after it (empty when there is none), and the whole
    match is the text up to the end of these digits. *)
Theorem SpecialInstructionRegex_matches (s : code) (m : list string) :
  SpecialInstructionRegex s = Some m <->
  exists name digits rest,
    s = src_of "!! " ++ name ++ digits ++ rest /\
    name <> [] /\
    Forall (fun c => is_lower c = true) name /\
    Forall (fun c => is_digit c = true) digits /\
    match digits ++ rest with c :: _ => is_lower c = false | [] => True end /\
    match rest with c :: _ => is_digit c = false | [] => True end /\
    m = [string_of_list_ascii (src_of "!! " ++ name ++ digits);
         string_of_list_ascii name;
         string_of_list_ascii digits].
Proof.
  split.
  - unfold SpecialInstructionRegex.
    destruct s as [| c1 [| c2 [| c3 r]]]; try discriminate.
    case_char c1 "!"%char; [| discriminate].
    case_char c2 "!"%char; [| discriminate].
    case_char c3 " "%char; [| discriminate].
    cbn [andb].
    destruct (take_while is_lower r) as [| n0 name'] eqn:Hname;
      [discriminate |].
    intros [= <-].
    exists (n0 :: name'), (take_while is_digit (drop_while is_lower r)),
      (drop_while is_digit (drop_while is_lower r)).
    split; [| split; [discriminate | split; [| split; [| split; [| split]]]]].
    + rewrite take_drop_while, <- Hname, take_drop_while. reflexivity.
    + rewrite <- Hname. apply take_while_Forall.
    + apply take_while_Forall.
    + rewrite take_drop_while. apply drop_while_head.
    + apply drop_while_head.
    + reflexivity.
  - intros (name & digits & rest & -> & Hne & Hlow & Hdig & Hstop1 & Hstop2 & ->).
    apply SpecialInstructionRegex_of_parts; assumption.
Qed.

(** X14: [!! printn] with no count after it has no effect: the second
    group of the match is empty, [strconv.Atoi] rejects it, and the
    iteration only advances the instruction index. *)
Theorem printn_without_count_is_ignored (fuel : nat) (pre post : code)
        (st : state) :
  match post with
  | c :: _ => is_lower c = false /\ is_digit c = false
  | [] => True
  end ->
  index st = len pre ->
  dispatch fuel (pre ++ src_of "!! printn" ++ post) st = Ok st /\
  step fuel (pre ++ src_of "!! printn" ++ post) st =
    Ok (set_index (index st + 1) st).
Proof.
  intros Hpost Hidx.
  assert (Hd : dispatch fuel (pre ++ src_of "!! printn" ++ post) st = Ok st).
  { unfold dispatch. rewrite Hidx.
    change (src_of "!! printn" ++ post)
      with ("!"%char :: (src_of "! printn" ++ post)).
    rewrite at_index_middle. cbn [Ascii.eqb Bool.eqb].
    rewrite drop_len_app.
    change ("!"%char :: (src_of "! printn" ++ post))
      with (src_of "!! " ++ src_of "printn" ++ [] ++ post).
    rewrite SpecialInstructionRegex_of_parts.
    - reflexivity.
    - discriminate.
    - repeat constructor.
    - constructor.
    - destruct post as [| c post]; [exact I | apply Hpost].
    - destruct post as [| c post]; [exact I | apply Hpost]. }
  split; [exact Hd |]. unfold step. rewrite Hd. reflexivity.
Qed.

Lemma printn_without_count_is_ignored_witness :
  step 0 (src_of "+!! printn +") (mkState [1] 0 1 [] [] []) =
  Ok (mkState [1] 0 2 [] [] []).
Proof.
  exact (proj2 (printn_without_count_is_ignored 0 (src_of "+") (src_of " +")
                  (mkState [1] 0 1 [] [] []) (conj eq_refl eq_refl) eq_refl)).
Defined.


(** ** Whole runs *)

Lemma wf_cell (st : state) : wf st -> exists v, cell st = Ok v.
Proof.
  intros [Hlen Hp]. unfold cell.
  destruct (at_index_in_range (tape st) (pointer st) ltac:(lia)) as [v ->].
  eauto.
Qed.

Lemma wf_store (v : Z) (st : state) :
  wf st ->
  exists st', store v st = Ok st' /\ wf st' /\
              output st' = output st /\ input st' = input st.
Proof.
  intros [Hlen Hp]. unfold store.
  destruct (at_index_in_range (tape st) (pointer st) ltac:(lia)) as [x ->].
  eexists. split; [reflexivity |]. repeat split; cbn [tape pointer set_tape];
    try lia.
  unfold len in *. rewrite length_insert. exact Hlen.
Qed.

Lemma wf_MoveLeft (st : state) : wf st -> wf (MoveLeft st).
Proof.
  intros [Hlen Hp]. unfold MoveLeft, wf.
  destruct (Z.eqb_spec (pointer st) 0); cbn [tape pointer set_pointer];
    (split; [exact Hlen | lia]).
Qed.

Lemma wf_MoveRight (st : state) : wf st -> wf (MoveRight st).
Proof.
  intros [Hlen Hp]. unfold MoveRight, wf.
  destruct (Z.eqb_spec (pointer st) (TapeLength - 1));
    cbn [tape pointer set_pointer]; (split; [exact Hlen | lia]).
Qed.

Lemma wf_ClearTape (st : state) : wf st -> wf (ClearTape st).
Proof.
  intros [Hlen Hp]. unfold ClearTape, wf. cbn [tape pointer set_tape set_pointer].
  split; [| unfold TapeLength; lia].
  unfold len in *. rewrite length_map. exact Hlen.
Qed.

Lemma SpecialInstructionRegex_shape (s : code) (m : list string) :
  SpecialInstructionRegex s = Some m ->
  exists whole name arg, m = [whole; name; arg].
Proof.
  unfold SpecialInstructionRegex.
  destruct s as [| c1 [| c2 [| c3 r]]]; try discriminate.
  destruct (_ && _)%bool; [| discriminate].
  destruct (take_while is_lower r); [discriminate |].
  intros [= <-]. eauto.
Qed.

(** What one special instruction can do to an engine in good shape. *)
Lemma RunSpecialInstruction_wf (fuel : nat) (name arg : string) (st : state) :
  wf st ->
  match RunSpecialInstruction fuel [name; arg] st with
  | Ok st' =>
      wf st' /\ output st `prefix_of` output st' /\ input st' = input st
  | Panic p => p = TapeIndexOutOfRange
  | OutOfFuel => True
  end.
Proof.
  intros Hwf. unfold RunSpecialInstruction. cbn [lookup list_lookup].
  destruct (name =? "clear")%string.
  { split; [apply wf_ClearTape; exact Hwf | split; reflexivity]. }
  destruct (name =? "print")%string.
  { destruct (FormatCells _ _ _ _) eqn:Hf; cbn [bind];
      [| eapply FormatCells_panic; exact Hf | exact I].
    split; [exact Hwf | split; [| reflexivity]].
    cbn [output emit]. apply prefix_app_r. reflexivity. }
  destruct (name =? "printn")%string; [| split; [exact Hwf | split; reflexivity]].
  destruct (Atoi arg) as [n |]; [| split; [exact Hwf | split; reflexivity]].
  destruct (FormatCells _ _ _ _) eqn:Hf; cbn [bind];
    [| eapply FormatCells_panic; exact Hf | exact I].
  split; [exact Hwf | split; [| reflexivity]].
  cbn [output emit]. apply prefix_app_r. reflexivity.
Qed.

(** The skip loop ends on a closer or on the index panic of its read. *)
Lemma skip_loop_result (l : code) :
  forall stk i,
    match skip_loop stk i l with
    | Ok _ => True
    | Panic p => p = CodeIndexOutOfRange
    | OutOfFuel => False
    end.
Proof.
  induction l as [| d l IH]; intros stk i; cbn [skip_loop]; [reflexivity |].
  destruct (d =? "[")%char; [apply IH |].
  destruct (d =? "]")%char; [| apply IH].
  destruct (Stack.IsEmpty _); [exact I | apply IH].
Qed.

(** What the [switch] can do to an engine in good shape. *)
Lemma dispatch_wf (fuel : nat) (src : code) (st : state) (c : ascii) :
  wf st ->
  at_index src (index st) = Some c ->
  match dispatch fuel src st with
  | Ok st' =>
      wf st' /\ output st `prefix_of` output st' /\
      input st' `suffix_of` input st
  | Panic p =>
      p = CodeIndexOutOfRange \/ p = EmptyStackPop \/
      (c = "!"%char /\ p = TapeIndexOutOfRange)
  | OutOfFuel => c = "!"%char
  end.
Proof.
  intros Hwf Hc. unfold dispatch. rewrite Hc.
  destruct (wf_cell st Hwf) as [v Hv].
  case_char c "<"%char.
  { split; [apply wf_MoveLeft; exact Hwf |].
    unfold MoveLeft. destruct (_ =? _); split; reflexivity. }
  case_char c ">"%char.
  { split; [apply wf_MoveRight; exact Hwf |].
    unfold MoveRight. destruct (_ =? _); split; reflexivity. }
  case_char c "-"%char.
  { unfold Decrement. rewrite Hv. cbn [bind].
    destruct (wf_store ((v - 1) mod 256) st Hwf) as (st' & -> & Hwf' & -> & ->).
    split; [exact Hwf' | split; reflexivity]. }
  case_char c "+"%char.
  { unfold Increment. rewrite Hv. cbn [bind].
    destruct (wf_store ((v + 1) mod 256) st Hwf) as (st' & -> & Hwf' & -> & ->).
    split; [exact Hwf' | split; reflexivity]. }
  case_char c "."%char.
  { unfold Output. rewrite Hv. cbn [bind].
    split; [exact Hwf | split; [| reflexivity]].
    cbn [output emit]. apply prefix_app_r. reflexivity. }
  case_char c ","%char.
  { unfold Input. rewrite Hv. cbn [bind].
    destruct (input st) as [| b inp] eqn:Hin.
    - split; [exact Hwf | split; [reflexivity | rewrite ?Hin; reflexivity]].
    - destruct (wf_store b (set_input inp st) Hwf)
        as (st' & -> & Hwf' & -> & ->).
      split; [exact Hwf' | split; [reflexivity |]].
      cbn [input set_input]. rewrite ?Hin. apply suffix_cons_r. reflexivity. }
  case_char c "["%char.
  { unfold OpenLoop. rewrite Hv. cbn [bind].
    destruct (v =? 0); cbn [fst snd].
    - pose proof (skip_loop_result (drop (S (Z.to_nat (index st))) src)
                    (Stack.Push 1 Stack.empty) (index st)) as Hskip.
      destruct (skip_loop _ _ _) as [j | p |]; cbn [bind].
      + split; [exact Hwf | split; reflexivity].
      + left. exact Hskip.
      + contradiction.
    - split; [exact Hwf | split; reflexivity]. }
  case_char c "]"%char.
  { unfold CloseLoop.
    destruct (Stack.Pop (loopStack st)) as [[p s] |]; [| cbn [bind]; auto].
    rewrite cell_set_loopStack, Hv. cbn [bind].
    destruct (v =? 0); cbn [bind fst snd];
      [split; [exact Hwf | split; reflexivity] |].
    destruct (negb _); (split; [exact Hwf | split; reflexivity]). }
  case_char c "!"%char; [| split; [exact Hwf | split; reflexivity]].
  destruct (SpecialInstructionRegex _) as [m |] eqn:Hm;
    [| split; [exact Hwf | split; reflexivity]].
  destruct (SpecialInstructionRegex_shape _ _ Hm) as (whole & name & arg & ->).
  pose proof (RunSpecialInstruction_wf fuel name arg st Hwf) as Hr.
  destruct (RunSpecialInstruction fuel [name; arg] st) as [st' | p |].
  - destruct Hr as (Hwf' & Hout & Hin). rewrite Hin.
    split; [exact Hwf' | split; [exact Hout | reflexivity]].
  - right. right. split; [reflexivity | exact Hr].
  - reflexivity.
Qed.

Lemma step_wf (fuel : nat) (src : code) (st st' : state) :
  wf st ->
  step fuel src st = Ok st' ->
  wf st' /\ output st `prefix_of` output st' /\ input st' `suffix_of` input st.
Proof.
  intros Hwf. unfold step.
  destruct (at_index src (index st)) as [c |] eqn:Hc.
  - pose proof (dispatch_wf fuel src st c Hwf Hc) as Hd.
    destruct (dispatch fuel src st) as [st1 | |]; cbn [bind]; try discriminate.
    intros [= <-]. exact Hd.
  - unfold dispatch. rewrite Hc. discriminate.
Qed.

Lemma Reach_wf (src : code) (st0 st : state) :
  wf st0 ->
  Reach src st0 st ->
  wf st /\ output st0 `prefix_of` output st /\ input st `suffix_of` input st0.
Proof.
  intros Hwf. induction 1 as [| st st' fuel Hreach IH Hstep Hlt].
  - split; [exact Hwf | split; reflexivity].
  - destruct IH as (Hwf1 & Hout1 & Hin1).
    destruct (step_wf fuel src st st' Hwf1 Hstep) as (Hwf2 & Hout2 & Hin2).
    split; [exact Hwf2 | split; etrans; eassumption].
Qed.

Lemma Run_loop_panic_Reach (fuel : nat) (src : code) (p : panic) :
  forall st0 st,
    Reach src st0 st ->
    Run_loop fuel src st = Panic p ->
    exists st1 fuel1, Reach src st0 st1 /\ step fuel1 src st1 = Panic p.
Proof.
  induction fuel as [| fuel IH]; intros st0 st Hreach Hrun; [discriminate |].
  cbn [Run_loop] in Hrun.
  destruct (step fuel src st) as [st2 | q |] eqn:Hstep; cbn [bind] in Hrun;
    try discriminate.
  - destruct (Z.geb_spec (index st2) (len src)) as [Hge | Hlt'];
      [discriminate |].
    apply (IH st0 st2); [| exact Hrun]. eapply Reach_next; eauto.
  - injection Hrun as ->. eauto.
Qed.

Lemma wf_Run_start (clearTape : bool) (st : state) :
  wf st -> wf (Run_start clearTape st).
Proof.
  intros Hwf. unfold Run_start. destruct clearTape; [| exact Hwf].
  apply (wf_ClearTape st Hwf).
Qed.

Lemma Run_loop_empty_source (fuel : nat) (st st' : state) :
  Run_loop fuel [] st <> Ok st'.
Proof.
  destruct fuel as [| fuel]; [discriminate |]. cbn [Run_loop].
  rewrite step_empty_source. discriminate.
Qed.

Lemma step_dispatch_panic (fuel : nat) (src : code) (st : state) (p : panic) :
  step fuel src st = Panic p -> dispatch fuel src st = Panic p.
Proof.
  unfold step. destruct (dispatch fuel src st); cbn [bind]; congruence.
Qed.

(** X15: what a return of [nil] from [Run] tells, when the engine was in
    good shape (a tape of [TapeLength] cells, the pointer inside it): the
    source was accepted by [Validate] and is not empty; the instruction
    index ended at the length of the source; the loop stack is what it was
    before the call, whatever it held; the engine is in good shape again;
    the output is the earlier output, then what the run printed, then one
    line break; and the pending input is a tail of the earlier one. *)
Theorem Run_return_state (fuel : nat) (src : code) (clearTape : bool)
        (st st' : state) :
  wf st ->
  Run fuel src clearTape st = Ok (None, st') ->
  Validate src = None /\
  src <> [] /\
  index st' = len src /\
  loopStack st' = loopStack st /\
  wf st' /\
  (exists out, output st' = output st ++ out ++ [PrintLine EmptyString]) /\
  input st' `suffix_of` input st.
Proof.
  intros Hwf Hrun. unfold Run in Hrun.
  destruct (Validate src) as [err |] eqn:Hval; [discriminate |].
  destruct (Run_loop fuel src (Run_start clearTape st)) as [st2 | |] eqn:Hloop;
    cbn [bind] in Hrun; try discriminate.
  injection Hrun as <-.
  assert (Hne : src <> []).
  { intros ->. exact (Run_loop_empty_source _ _ _ Hloop). }
  assert (Hstk0 : loopStack (Run_start clearTape st) = loopStack st)
    by (destruct clearTape; reflexivity).
  assert (Hout0 : output (Run_start clearTape st) = output st)
    by (destruct clearTape; reflexivity).
  assert (Hin0 : input (Run_start clearTape st) = input st)
    by (destruct clearTape; reflexivity).
  destruct (Run_loop_Reach fuel src _ _ st2 (Reach_start _ _) Hloop)
    as (st1 & fuel1 & Hreach & Hstep & Hend).
  destruct (Reach_Inv src (Run_start clearTape st) st1 Hval eq_refl Hne Hreach)
    as [Hinv Hlt].
  pose proof (step_Inv fuel1 src _ st1 Hval Hinv Hlt) as Hs.
  rewrite Hstep in Hs. destruct Hs as [Hrange Hstk].
  destruct (Reach_wf src _ st1 (wf_Run_start clearTape st Hwf) Hreach)
    as (Hwf1 & Hout1 & Hin1).
  destruct (step_wf fuel1 src st1 st2 Hwf1 Hstep) as (Hwf2 & Hout2 & Hin2).
  assert (Hidx : index st2 = len src) by lia.
  split; [reflexivity | split; [exact Hne | split; [exact Hidx |]]].
  split; [| split; [exact Hwf2 | split]].
  - cbn [loopStack emit]. rewrite Hstk, Hidx, Hstk0.
    rewrite <- (app_nil_r src) at 1. rewrite enclosing_prefix.
    rewrite (Validate_none_pending src Hval). reflexivity.
  - assert (Hpre : output st `prefix_of` output st2).
    { rewrite <- Hout0. etrans; eassumption. }
    destruct Hpre as [out Hout]. exists out. cbn [output emit].
    rewrite Hout, <- app_assoc. reflexivity.
  - cbn [input emit]. rewrite <- Hin0. etrans; eassumption.
Qed.

Lemma Run_return_state_witness :
  exists out,
    [PrintChar 3; PrintLine EmptyString] =
    [] ++ out ++ [PrintLine EmptyString].
Proof.
  assert (Hwf : wf (initial_state [])).
  { split; [vm_compute; reflexivity | cbn; unfold TapeLength; lia]. }
  assert (Hrun : Run 4 (src_of "+++.") false (initial_state []) =
                 Ok (None,
                     mkState (<[0%nat := 3]>
                                (<[0%nat := 2]>
                                   (<[0%nat := 1]>
                                      (replicate (Z.to_nat TapeLength) 0))))
                             0 4 [] [] [PrintChar 3; PrintLine EmptyString])).
  { reflexivity. }
  destruct (Run_return_state 4 (src_of "+++.") false (initial_state []) _
              Hwf Hrun) as (_ & _ & _ & _ & _ & Hout & _).
  exact Hout.
Defined.

(** X16: from an engine in good shape, a run of a non-empty source can
    panic in one way only: on a tape index, inside a special instruction.
    A source without ["!"] never makes [Run] panic. *)
Theorem Run_panics_only_in_special_instruction (fuel : nat) (src : code)
        (clearTape : bool) (st : state) (p : panic) :
  wf st ->
  src <> [] ->
  Run fuel src clearTape st = Panic p ->
  p = TapeIndexOutOfRange /\ "!"%char ∈ src.
Proof.
  intros Hwf Hne Hrun. unfold Run in Hrun.
  destruct (Validate src) as [err |] eqn:Hval; [discriminate |].
  destruct (Run_loop fuel src (Run_start clearTape st)) as [st2 | q |] eqn:Hloop;
    cbn [bind] in Hrun; try discriminate.
  injection Hrun as ->.
  destruct (Run_loop_panic_Reach fuel src p _ _ (Reach_start _ _) Hloop)
    as (st1 & fuel1 & Hreach & Hstep).
  destruct (Reach_Inv src (Run_start clearTape st) st1 Hval eq_refl Hne Hreach)
    as [Hinv Hlt].
  pose proof (step_Inv fuel1 src _ st1 Hval Hinv Hlt) as Hs.
  rewrite Hstep in Hs.
  destruct (Reach_wf src _ st1 (wf_Run_start clearTape st Hwf) Hreach)
    as (Hwf1 & _ & _).
  destruct Hinv as [Hrange _].
  destruct (at_index_in_range src (index st1) ltac:(lia)) as [c Hc].
  pose proof (dispatch_wf fuel1 src st1 c Hwf1 Hc) as Hd.
  rewrite (step_dispatch_panic _ _ _ _ Hstep) in Hd.
  destruct Hd as [-> | [-> | [-> ->]]].
  - destruct Hs; discriminate.
  - destruct Hs; discriminate.
  - split; [reflexivity |].
    apply at_index_Some in Hc. destruct Hc as (pre & post & -> & _).
    apply elem_of_app. right. apply elem_of_cons. left. reflexivity.
Qed.

Lemma Run_panics_only_in_special_instruction_witness :
  "!"%char ∈ src_of "!! printn60000".
Proof.
  assert (Hwf : wf (initial_state [])).
  { split; [vm_compute; reflexivity | cbn; unfold TapeLength; lia]. }
  assert (Hne : src_of "!! printn60000" <> []) by discriminate.
  assert (Hrun : Run 2 (src_of "!! printn60000") true (initial_state []) =
                 Panic TapeIndexOutOfRange) by (vm_compute; reflexivity).
  exact (proj2 (Run_panics_only_in_special_instruction 2
                  (src_of "!! printn60000") true (initial_state [])
                  TapeIndexOutOfRange Hwf Hne Hrun)).
Defined.

Lemma filter_no_bracket (src : code) :
  Forall (fun c => c <> "["%char /\ c <> "]"%char /\ c <> "!"%char) src ->
  List.filter is_bracket src = [].
Proof.
  induction 1 as [| c l (H1 & H2 & _) _ IH]; [reflexivity |].
  cbn [List.filter]. unfold is_bracket.
  destruct (Ascii.eqb_spec c "["%char); [congruence |].
  destruct (Ascii.eqb_spec c "]"%char); [congruence |]. exact IH.
Qed.

Lemma wf_set_index (i : Z) (st : state) : wf st -> wf (set_index i st).
Proof. intros H. exact H. Qed.

Lemma Run_loop_straight_line (src : code) :
  Forall (fun c => c <> "["%char /\ c <> "]"%char /\ c <> "!"%char) src ->
  forall (n fuel : nat) (st : state),
    wf st ->
    0 <= index st ->
    index st + Z.of_nat n = len src ->
    (1 <= n <= fuel)%nat ->
    exists st', Run_loop fuel src st = Ok st'.
Proof.
  intros Hsrc. induction n as [| n IH]; intros fuel st Hwf H0 Hn Hfuel; [lia |].
  destruct fuel as [| fuel]; [lia |]. cbn [Run_loop]. unfold step.
  destruct (at_index_in_range src (index st) ltac:(lia)) as [c Hc].
  assert (Hchar : c <> "["%char /\ c <> "]"%char /\ c <> "!"%char).
  { pose proof Hc as Hsplit. apply at_index_Some in Hsplit.
    destruct Hsplit as (pre & post & -> & _).
    apply Forall_app in Hsrc. destruct Hsrc as [_ Hsrc].
    apply Forall_cons in Hsrc. apply Hsrc. }
  destruct Hchar as (Hopen & Hclose & Hbang).
  pose proof (dispatch_other fuel src st c Hc Hopen Hclose) as Hframe.
  pose proof (dispatch_wf fuel src st c Hwf Hc) as Hshape.
  destruct (dispatch fuel src st) as [st1 | p |]; cbn [bind].
  - destruct Hframe as [Hidx _]. destruct Hshape as [Hwf1 _].
    cbn [index set_index].
    destruct (Z.geb_spec (index st1 + 1) (len src)) as [Hge | Hlt];
      [eauto |].
    apply (IH fuel (set_index (index st1 + 1) st1));
      [exact Hwf1 | cbn [index set_index]; lia
      | cbn [index set_index]; lia | lia].
  - destruct Hshape as [-> | [-> | [-> _]]];
      [destruct Hframe; discriminate | destruct Hframe; discriminate
      | congruence].
  - congruence.
Qed.

(** X17: a source without brackets and without ["!"] is a straight line:
    from an engine in good shape [Run] accepts it, dispatches each of its
    characters once and returns [nil]; as many iterations as the source has
    characters are enough. *)
Theorem straight_line_run_returns (fuel : nat) (src : code)
        (clearTape : bool) (st : state) :
  wf st ->
  src <> [] ->
  Forall (fun c => c <> "["%char /\ c <> "]"%char /\ c <> "!"%char) src ->
  (length src <= fuel)%nat ->
  exists st', Run fuel src clearTape st = Ok (None, st').
Proof.
  intros Hwf Hne Hsrc Hfuel.
  assert (Hval : Validate src = None).
  { unfold Validate. rewrite (Validate_loop_filter src _ 0 0).
    rewrite (filter_no_bracket src Hsrc). reflexivity. }
  unfold Run. rewrite Hval.
  destruct (Run_loop_straight_line src Hsrc (length src) fuel
              (Run_start clearTape st) (wf_Run_start _ _ Hwf))
    as [st' Hst'].
  - cbn. lia.
  - cbn. unfold len. lia.
  - destruct src; [congruence | cbn [length] in *; lia].
  - rewrite Hst'. cbn [bind]. eauto.
Qed.

Lemma straight_line_run_returns_witness :
  exists st', Run 5 (src_of "+>,.<") false (initial_state [7]) = Ok (None, st').
Proof.
  assert (Hwf : wf (initial_state [7])).
  { split; [vm_compute; reflexivity | cbn; unfold TapeLength; lia]. }
  assert (Hne : src_of "+>,.<" <> []) by discriminate.
  assert (Hsrc : Forall (fun c => c <> "["%char /\ c <> "]"%char /\
                                  c <> "!"%char) (src_of "+>,.<")).
  { repeat constructor; discriminate. }
  assert (Hfuel : (length (src_of "+>,.<") <= 5)%nat) by (cbn; lia).
  exact (straight_line_run_returns 5 (src_of "+>,.<") false
           (initial_state [7]) Hwf Hne Hsrc Hfuel).
Defined.

(** ** The back edge of a loop *)

(** X18: in a run of a validated source, when ["]"] is dispatched on a
    non-zero cell, the next two iterations (the ["]"] itself, then the
    matching ["["], which tests the same cell again) bring the engine to
    the first character after that ["["] with the tape, the pointer, the
    loop stack, the input and the output exactly as they were. *)
Theorem loop_back_edge (src : code) (st0 st : state) (v : Z) :
  Validate src = None ->
  index st0 = 0 ->
  Reach src st0 st ->
  at_index src (index st) = Some "]"%char ->
  cell st = Ok v ->
  v <> 0 ->
  exists p,
    Matched src p (index st) /\
    forall fuel1 fuel2,
      (do st1 <- step fuel1 src st ; step fuel2 src st1) =
      Ok (set_index (p + 1) st).
Proof.
  intros Hval Hidx0 Hreach Hc Hcell Hv.
  assert (Hne : src <> []).
  { intros ->. unfold at_index in Hc. destruct (_ <? _); discriminate. }
  destruct (Reach_Inv src st0 st Hval Hidx0 Hne Hreach) as [[_ Hstk] _].
  pose proof Hc as Hsplit.
  apply at_index_Some in Hsplit. destruct Hsplit as (pre & post & -> & Hidx).
  rewrite Hidx, enclosing_prefix in Hstk.
  pose proof (Validate_closer_has_opener _ _ Hval) as Hpne.
  destruct (pending_from [] 0 pre) as [| p rest] eqn:Hpend; [congruence |].
  destruct (pending_from_top _ pre p rest (le_n _) Hpend)
    as (pre1 & body & -> & Hb & -> & Hrest).
  change (loopStack st = len pre1 :: (rest ++ loopStack st0)) in Hstk.
  exists (len pre1). split.
  - exists pre1, body, post. rewrite Hidx.
    split; [list_assoc | split; [exact Hb | split; [reflexivity |]]].
    len_simpl. lia.
  - intros fuel1 fuel2. unfold step at 1.
    rewrite (dispatch_close fuel1 _ st _ _ v Hc Hstk Hcell (len_nonneg _)).
    destruct (Z.eqb_spec v 0) as [-> | _]; [congruence |].
    cbn [bind index set_index set_loopStack].
    replace (len pre1 - 1 + 1) with (len pre1) by lia.
    unfold step.
    rewrite (dispatch_open_nonzero fuel2 _ _ v); [| | exact Hcell | exact Hv].
    + cbn [bind index loopStack set_index set_loopStack].
      rewrite <- Hstk. destruct st; reflexivity.
    + cbn [index]. rewrite <- app_assoc. apply at_index_middle.
Qed.

Lemma loop_back_edge_witness :
  exists p,
    Matched (src_of "++[-]") p 4 /\
    (do st1 <- step 0 (src_of "++[-]") (mkState [1] 0 4 [2] [] []) ;
     step 0 (src_of "++[-]") st1) =
    Ok (set_index (p + 1) (mkState [1] 0 4 [2] [] [])).
Proof.
  assert (Hreach : Reach (src_of "++[-]") (mkState [0] 0 0 [] [] [])
                     (mkState [1] 0 4 [2] [] [])).
  { eapply (Reach_next _ _ (mkState [2] 0 3 [2] [] []) _ 0%nat);
      [| reflexivity | reflexivity].
    eapply (Reach_next _ _ (mkState [2] 0 2 [] [] []) _ 0%nat);
      [| reflexivity | reflexivity].
    eapply (Reach_next _ _ (mkState [1] 0 1 [] [] []) _ 0%nat);
      [| reflexivity | reflexivity].
    eapply (Reach_next _ _ (mkState [0] 0 0 [] [] []) _ 0%nat);
      [| reflexivity | reflexivity].
    apply Reach_start. }
  assert (H1 : 1 <> 0) by lia.
  destruct (loop_back_edge (src_of "++[-]") (mkState [0] 0 0 [] [] [])
              (mkState [1] 0 4 [2] [] []) 1 eq_refl eq_refl Hreach eq_refl
              eq_refl H1) as (p & Hm & Hsteps).
  exists p. split; [exact Hm | exact (Hsteps 0%nat 0%nat)].
Defined.

(** ** The command *)

(** X19: what [main] does with its arguments.  With no argument or with
    more than one it does nothing: no file is read and the engine is left
    untouched.  With one argument it reports a file that cannot be read, or
    a program that [Validate] rejects, in one line that names the file (and
    the error), leaving the engine as it was; a validated program is run
    with the flag off, on the tape as it stands; an empty file makes it
    panic like [Run] on the empty source. *)
Theorem main_behaviour (args : list string) (ReadFile : string -> option code)
        (fuel : nat) (st : state) :
  (len args <> 1 -> main args ReadFile fuel st = Ok st) /\
  (forall f, args = [f] -> ReadFile f = None ->
     main args ReadFile fuel st =
     Ok (emit (PrintLine ("File " ++ f ++ " could not be used")%string) st)) /\
  (forall f program msg,
     args = [f] -> ReadFile f = Some program ->
     Validate program = Some (errorsNew msg) ->
     main args ReadFile fuel st =
     Ok (emit (PrintLine
                 ("File " ++ f ++
                  " does not contain a valid Brainfuck program: " ++ msg)%string)
              st)) /\
  (forall f program,
     args = [f] -> ReadFile f = Some program ->
     Validate program = None ->
     main args ReadFile fuel st =
     do r <- Run fuel program false st ; Ok (snd r)) /\
  (forall f,
     args = [f] -> ReadFile f = Some [] ->
     main args ReadFile (S fuel) st = Panic CodeIndexOutOfRange).
Proof.
  split; [| split; [| split; [| split]]].
  - intros Hlen. unfold main.
    destruct args as [| f [| g args]].
    + reflexivity.
    + exfalso. apply Hlen. reflexivity.
    + destruct (Z.ltb_spec 0 (len (f :: g :: args))) as [_ | H0];
        [| reflexivity].
      destruct (Z.ltb_spec 1 (len (f :: g :: args))) as [_ | H1];
        [reflexivity |].
      rewrite !len_cons in H1. pose proof (len_nonneg args). lia.
  - intros f -> Hread. unfold main. cbn. rewrite Hread. reflexivity.
  - intros f program msg -> Hread Hval. unfold main. cbn. rewrite Hread.
    unfold Run. rewrite Hval. reflexivity.
  - intros f program -> Hread Hval. unfold main. cbn. rewrite Hread.
    unfold Run. rewrite Hval.
    destruct (Run_loop fuel program (Run_start false st)); reflexivity.
  - intros f -> Hread. unfold main. cbn. rewrite Hread. reflexivity.
Qed.

(** ** Fuel is only a bound *)

Lemma FormatCells_loop_more_fuel (t : list Z) (stop : Z) :
  forall fuel fuel' i r,
    FormatCells_loop fuel t i stop = r ->
    r <> OutOfFuel ->
    (fuel <= fuel')%nat ->
    FormatCells_loop fuel' t i stop = r.
Proof.
  induction fuel as [| fuel IH]; intros fuel' i r Hr Hne Hle.
  - cbn [FormatCells_loop] in Hr. destruct (Z.eqb_spec i stop) as [-> | _].
    + rewrite FormatCells_loop_here. exact Hr.
    + congruence.
  - destruct fuel' as [| fuel']; [lia |].
    cbn [FormatCells_loop] in Hr |- *.
    destruct (i =? stop); [exact Hr |].
    destruct (at_index t _) as [v |]; [| exact Hr].
    destruct (FormatCells_loop fuel t _ stop) as [rest | p |] eqn:Hrec;
      cbn [bind] in Hr.
    + rewrite (IH fuel' _ (Ok rest) Hrec) by (discriminate || lia). exact Hr.
    + rewrite (IH fuel' _ (Panic p) Hrec) by (discriminate || lia). exact Hr.
    + congruence.
Qed.

Lemma FormatCells_more_fuel (fuel fuel' : nat) (x y : Z) (st : state)
      (r : result string) :
  FormatCells fuel x y st = r ->
  r <> OutOfFuel ->
  (fuel <= fuel')%nat ->
  FormatCells fuel' x y st = r.
Proof.
  unfold FormatCells, FormatCells_cells. intros Hr Hne Hle.
  destruct (FormatCells_loop fuel _ _ _) as [cells | p |] eqn:Hloop;
    cbn [bind] in Hr.
  - rewrite (FormatCells_loop_more_fuel _ _ fuel fuel' _ _ Hloop)
      by (discriminate || lia). exact Hr.
  - rewrite (FormatCells_loop_more_fuel _ _ fuel fuel' _ _ Hloop)
      by (discriminate || lia). exact Hr.
  - congruence.
Qed.

Lemma print_more_fuel (fuel fuel' : nat) (x y : Z) (st : state)
      (r : result state) :
  (do s <- FormatCells fuel x y st ; Ok (emit (PrintLine s) st)) = r ->
  r <> OutOfFuel ->
  (fuel <= fuel')%nat ->
  (do s <- FormatCells fuel' x y st ; Ok (emit (PrintLine s) st)) = r.
Proof.
  intros Hr Hne Hle.
  destruct (FormatCells fuel x y st) as [s | p |] eqn:Hf; cbn [bind] in Hr.
  - rewrite (FormatCells_more_fuel fuel fuel' _ _ _ _ Hf)
      by (discriminate || lia). exact Hr.
  - rewrite (FormatCells_more_fuel fuel fuel' _ _ _ _ Hf)
      by (discriminate || lia). exact Hr.
  - congruence.
Qed.

Lemma dispatch_more_fuel (fuel fuel' : nat) (src : code) (st : state)
      (r : result state) :
  dispatch fuel src st = r ->
  r <> OutOfFuel ->
  (fuel <= fuel')%nat ->
  dispatch fuel' src st = r.
Proof.
  unfold dispatch. intros Hr Hne Hle.
  destruct (at_index src (index st)) as [c |]; [| exact Hr].
  repeat match goal with
         | |- context [if (c =? ?x)%char then _ else _] =>
             destruct (c =? x)%char; [first [exact Hr | idtac] |]
         end; try exact Hr.
  destruct (SpecialInstructionRegex _) as [[| whole groups] |];
    try exact Hr.
  unfold RunSpecialInstruction in *.
  destruct (groups !! 0%nat) as [name |]; [| exact Hr].
  destruct (name =? "clear")%string; [exact Hr |].
  destruct (name =? "print")%string;
    [eapply print_more_fuel; eassumption |].
  destruct (name =? "printn")%string; [| exact Hr].
  destruct (groups !! 1%nat) as [arg |]; [| exact Hr].
  destruct (Atoi arg) as [n |]; [| exact Hr].
  eapply print_more_fuel; eassumption.
Qed.

Lemma step_more_fuel (fuel fuel' : nat) (src : code) (st : state)
      (r : result state) :
  step fuel src st = r ->
  r <> OutOfFuel ->
  (fuel <= fuel')%nat ->
  step fuel' src st = r.
Proof.
  unfold step. intros Hr Hne Hle.
  destruct (dispatch fuel src st) as [st' | p |] eqn:Hd; cbn [bind] in Hr.
  - rewrite (dispatch_more_fuel fuel fuel' _ _ _ Hd) by (discriminate || lia).
    exact Hr.
  - rewrite (dispatch_more_fuel fuel fuel' _ _ _ Hd) by (discriminate || lia).
    exact Hr.
  - congruence.
Qed.

Lemma Run_loop_more_fuel (src : code) :
  forall fuel fuel' st r,
    Run_loop fuel src st = r ->
    r <> OutOfFuel ->
    (fuel <= fuel')%nat ->
    Run_loop fuel' src st = r.
Proof.
  induction fuel as [| fuel IH]; intros fuel' st r Hr Hne Hle;
    [cbn in Hr; congruence |].
  destruct fuel' as [| fuel']; [lia |]. cbn [Run_loop] in Hr |- *.
  destruct (step fuel src st) as [st' | p |] eqn:Hs; cbn [bind] in Hr.
  - rewrite (step_more_fuel fuel fuel' _ _ _ Hs) by (discriminate || lia).
    cbn [bind]. destruct (index st' >=? len src); [exact Hr |].
    apply (IH fuel' st' r Hr Hne). lia.
  - rewrite (step_more_fuel fuel fuel' _ _ _ Hs) by (discriminate || lia).
    exact Hr.
  - congruence.
Qed.

(** ** What the engine does not read *)

Lemma RunSpecialInstruction_recontrol (fuel : nat) (inst : list string)
      (i : Z) (stk : list Z) (P : list event) (st : state) :
  RunSpecialInstruction fuel inst (recontrol i stk P st) =
  lift (recontrol i stk P) (RunSpecialInstruction fuel inst st).
Proof.
  unfold RunSpecialInstruction.
  destruct (inst !! 0%nat) as [name |]; [| reflexivity].
  destruct (name =? "clear")%string; [reflexivity |].
  assert (Hprint : forall x y,
             (do s <- FormatCells fuel x y (recontrol i stk P st) ;
              Ok (emit (PrintLine s) (recontrol i stk P st))) =
             lift (recontrol i stk P)
                  (do s <- FormatCells fuel x y st ;
                   Ok (emit (PrintLine s) st))).
  { intros x y.
    change (FormatCells fuel x y (recontrol i stk P st))
      with (FormatCells fuel x y st).
    destruct (FormatCells fuel x y st) as [s | p |]; cbn [bind lift];
      [| reflexivity ..].
    unfold emit, recontrol. cbn. rewrite app_assoc. reflexivity. }
  destruct (name =? "print")%string; [apply Hprint |].
  destruct (name =? "printn")%string; [| reflexivity].
  destruct (inst !! 1%nat) as [arg |]; [| reflexivity].
  destruct (Atoi arg) as [n |]; [| reflexivity].
  apply Hprint.
Qed.

(** Outside the brackets the [switch] reads neither [index] (but to fetch
    the character and the text after it), nor [loopStack], nor the output. *)
Lemma dispatch_recontrol_other (fuel : nat) (src src' : code) (st : state)
      (c : ascii) (i : Z) (stk : list Z) (P : list event) :
  at_index src (index st) = Some c ->
  at_index src' i = Some c ->
  c <> "["%char -> c <> "]"%char ->
  drop (Z.to_nat i) src' = drop (Z.to_nat (index st)) src ->
  dispatch fuel src' (recontrol i stk P st) =
  lift (recontrol i stk P) (dispatch fuel src st).
Proof.
  intros Hc Hc' Hopen Hclose Hdrop. unfold dispatch.
  cbn [index recontrol]. rewrite Hc, Hc'.
  case_char c "<"%char.
  { unfold MoveLeft. cbn [pointer recontrol].
    destruct (pointer st =? 0); reflexivity. }
  case_char c ">"%char.
  { unfold MoveRight. cbn [pointer recontrol].
    destruct (pointer st =? TapeLength - 1); reflexivity. }
  case_char c "-"%char.
  { unfold Decrement, cell, store. cbn [tape pointer recontrol].
    destruct (at_index (tape st) (pointer st)); reflexivity. }
  case_char c "+"%char.
  { unfold Increment, cell, store. cbn [tape pointer recontrol].
    destruct (at_index (tape st) (pointer st)); reflexivity. }
  case_char c "."%char.
  { unfold Output, cell. cbn [tape pointer recontrol].
    destruct (at_index (tape st) (pointer st)); cbn [bind lift];
      [| reflexivity].
    unfold emit, recontrol. cbn. rewrite app_assoc. reflexivity. }
  case_char c ","%char.
  { unfold Input, cell, store. cbn [tape pointer input recontrol set_input].
    destruct (at_index (tape st) (pointer st)); cbn [bind lift];
      [| reflexivity].
    destruct (input st); reflexivity. }
  case_char c "["%char; [congruence |].
  case_char c "]"%char; [congruence |].
  case_char c "!"%char; [| reflexivity].
  rewrite Hdrop.
  destruct (SpecialInstructionRegex _) as [[| whole groups] |];
    try reflexivity.
  apply RunSpecialInstruction_recontrol.
Qed.

Lemma enclosing_same (pre post : code) (c : ascii) :
  c <> "["%char -> c <> "]"%char ->
  enclosing (pre ++ c :: post) (len pre + 1) =
  enclosing (pre ++ c :: post) (len pre).
Proof.
  intros Hopen Hclose. rewrite enclosing_next, enclosing_prefix.
  cbn [pending_from].
  destruct (Ascii.eqb_spec c "["%char); [congruence |].
  destruct (Ascii.eqb_spec c "]"%char); [congruence |]. reflexivity.
Qed.

Lemma state_ext (s t : state) :
  tape s = tape t -> pointer s = pointer t -> index s = index t ->
  loopStack s = loopStack t -> input s = input t -> output s = output t ->
  s = t.
Proof. destruct s, t. cbn. intros. subst. reflexivity. Qed.

Ltac state_fields :=
  apply state_ext;
  cbn [tape pointer index loopStack input output set_index set_loopStack
       set_tape set_pointer set_input emit relocate recontrol];
  try reflexivity.

(** One iteration on [b] and the same iteration on [a ++ b], [len a]
    characters further. *)
Lemma step_relocate (fuel : nat) (a b : code) (s0 stk : list Z)
      (P : list event) (st : state) :
  Validate b = None ->
  Inv b s0 st ->
  index st < len b ->
  step fuel (a ++ b) (relocate a b stk P st) =
  lift (relocate a b stk P) (step fuel b st).
Proof.
  intros Hval [Hrange Hstk] Hlt.
  destruct (at_index_in_range b (index st) ltac:(lia)) as [c Hc].
  pose proof Hc as Hsplit.
  apply at_index_Some in Hsplit. destruct Hsplit as (pre & post & -> & Hidx).
  assert (Hidx' : index (relocate a (pre ++ c :: post) stk P st) =
                  len (a ++ pre)).
  { cbn [index relocate recontrol]. rewrite Hidx. len_simpl. reflexivity. }
  assert (Hc' : at_index (a ++ pre ++ c :: post)
                  (index (relocate a (pre ++ c :: post) stk P st)) = Some c).
  { rewrite Hidx', app_assoc. apply at_index_middle. }
  assert (Hcell : cell (relocate a (pre ++ c :: post) stk P st) = cell st)
    by reflexivity.
  assert (Hencl : enclosing (pre ++ c :: post) (index st) =
                  pending_from [] 0 pre).
  { rewrite Hidx. apply enclosing_prefix. }
  case_char c "["%char; [| case_char c "]"%char].
  - (* loop entry *)
    destruct (cell_cases st) as [[v Hv] | Hv].
    2:{ unfold step, dispatch, OpenLoop. rewrite Hc, Hc', Hcell, Hv.
        reflexivity. }
    destruct (Z.eq_dec v 0) as [-> | Hnz].
    + destruct (Validate_opener_has_closer _ _ Hval)
        as (body & post' & -> & Hb).
      unfold step.
      rewrite (dispatch_open_zero fuel pre body post' st Hb Hidx Hv).
      rewrite (app_assoc a pre).
      rewrite (dispatch_open_zero fuel (a ++ pre) body post' _ Hb);
        [| exact Hidx' | rewrite Hcell; exact Hv].
      cbn [bind lift]. f_equal.
      state_fields.
      * len_simpl. lia.
      * rewrite Hencl.
        rewrite (enclosing_after_loop pre body post' Hb). reflexivity.
    + unfold step.
      rewrite (dispatch_open_nonzero fuel _ st v Hc Hv Hnz).
      rewrite (dispatch_open_nonzero fuel _ _ v Hc');
        [| rewrite Hcell; exact Hv | exact Hnz].
      cbn [bind lift]. f_equal.
      state_fields.
      * lia.
      * rewrite Hidx, enclosing_next, enclosing_prefix.
        cbn [pending_from Ascii.eqb Bool.eqb map app]. f_equal; lia.
  - (* loop exit *)
    pose proof (Validate_closer_has_opener _ _ Hval) as Hne.
    rewrite Hencl in Hstk.
    destruct (pending_from [] 0 pre) as [| p rest] eqn:Hpend; [congruence |].
    destruct (pending_from_top _ pre p rest (le_n _) Hpend)
      as (pre1 & body & Hpre & Hb & Hp & Hrest).
    assert (Hp0 : 0 <= p) by (rewrite Hp; apply len_nonneg).
    change (loopStack st = p :: (rest ++ s0)) in Hstk.
    assert (Hstk' : loopStack (relocate a (pre ++ "]"%char :: post) stk P st) =
                    (len a + p) :: (map (Z.add (len a)) rest ++ stk)).
    { cbn [loopStack relocate recontrol]. rewrite Hencl. reflexivity. }
    destruct (cell_cases st) as [[v Hv] | Hv].
    2:{ unfold step, dispatch, CloseLoop. rewrite Hc, Hc', Hstk, Hstk'.
        cbn [Stack.Pop]. rewrite !cell_set_loopStack, Hcell, Hv.
        reflexivity. }
    unfold step.
    rewrite (dispatch_close fuel _ st p _ v Hc Hstk Hv Hp0).
    rewrite (dispatch_close fuel _ _ (len a + p) _ v Hc' Hstk');
      [| rewrite Hcell; exact Hv | pose proof (len_nonneg a); lia].
    cbn [bind lift]. f_equal.
    assert (Hjump : enclosing (pre ++ "]"%char :: post) p = rest).
    { rewrite (enclosing_at _ pre1 ("["%char :: body ++ "]"%char :: post) p);
        [exact Hrest | rewrite Hpre; list_assoc | exact Hp]. }
    destruct (Z.eqb_spec v 0) as [-> | Hnz]; state_fields.
    + lia.
    + rewrite Hidx, enclosing_next, Hpend.
      cbn [pending_from Ascii.eqb Bool.eqb tail]. reflexivity.
    + lia.
    + replace (p - 1 + 1) with p by lia. rewrite Hjump. reflexivity.
  - (* any other character *)
    unfold step. cbn [index relocate recontrol] in Hc'.
    unfold relocate at 1.
    rewrite (dispatch_recontrol_other fuel (pre ++ c :: post)
               (a ++ pre ++ c :: post) st c _ _ P Hc Hc' E E0).
    2:{ rewrite Hidx.
        replace (len a + len pre) with (len (a ++ pre)) by (len_simpl; lia).
        rewrite app_assoc, !drop_len_app. reflexivity. }
    pose proof (dispatch_other fuel _ st c Hc E E0) as Hframe.
    destruct (dispatch fuel _ st) as [st1 | p |]; cbn [bind lift];
      [| reflexivity ..].
    destruct Hframe as [Hi Hs]. f_equal.
    state_fields.
    + lia.
    + rewrite Hi, Hidx, enclosing_same by assumption. reflexivity.
Qed.

Lemma Run_loop_relocate (a b : code) (s0 stk : list Z) (P : list event) :
  Validate b = None ->
  forall fuel st,
    Inv b s0 st ->
    index st < len b ->
    Run_loop fuel (a ++ b) (relocate a b stk P st) =
    lift (relocate a b stk P) (Run_loop fuel b st).
Proof.
  intros Hval. induction fuel as [| fuel IH]; intros st Hinv Hlt;
    [reflexivity |].
  cbn [Run_loop]. rewrite (step_relocate fuel a b s0 stk P st Hval Hinv Hlt).
  pose proof (step_Inv fuel b s0 st Hval Hinv Hlt) as Hs.
  destruct (step fuel b st) as [st1 | p |]; cbn [bind lift];
    [| reflexivity ..].
  cbn [index relocate recontrol]. rewrite len_app.
  destruct (Z.geb_spec (index st1) (len b)) as [Hge | Hlt1];
    destruct (Z.geb_spec (len a + index st1) (len a + len b)) as [Hge' | Hlt'];
    try lia; [reflexivity |].
  apply IH; assumption.
Qed.

(** Where the loop of [Run] ends. *)
Lemma Run_loop_end (fuel : nat) (src : code) (st0 st : state) :
  Validate src = None ->
  index st0 = 0 ->
  Run_loop fuel src st0 = Ok st ->
  src <> [] /\ index st = len src /\ loopStack st = loopStack st0.
Proof.
  intros Hval Hidx0 Hloop.
  assert (Hne : src <> []).
  { intros ->. exact (Run_loop_empty_source _ _ _ Hloop). }
  destruct (Run_loop_Reach fuel src _ _ st (Reach_start _ _) Hloop)
    as (st1 & fuel1 & Hreach & Hstep & Hend).
  destruct (Reach_Inv src st0 st1 Hval Hidx0 Hne Hreach) as [Hinv Hlt].
  pose proof (step_Inv fuel1 src _ st1 Hval Hinv Hlt) as Hs.
  rewrite Hstep in Hs. destruct Hs as [Hrange Hstk].
  assert (Hidx : index st = len src) by lia.
  split; [exact Hne | split; [exact Hidx |]].
  rewrite Hstk, Hidx. rewrite <- (app_nil_r src) at 1.
  rewrite enclosing_prefix, (Validate_none_pending src Hval). reflexivity.
Qed.

Lemma enclosing_start (src : code) : enclosing src 0 = [].
Proof. unfold enclosing. rewrite take_0. reflexivity. Qed.

Lemma enclosing_finish (src : code) :
  Validate src = None -> enclosing src (len src) = [].
Proof.
  intros Hval. rewrite <- (app_nil_r src) at 1.
  rewrite enclosing_prefix. apply Validate_none_pending. exact Hval.
Qed.

(** X20: on a validated source [Run] reads neither the value that
    [index] has before the call, nor the loop stack, nor the earlier
    output.  Started with another index, another loop stack and other
    earlier output, it panics, runs out of fuel or returns alike; when it
    returns, the tape, the pointer, the pending input and the final index
    are the same, the loop stack is the one it was given, and the same
    events are printed after the earlier output. *)
Theorem Run_ignores_index_stack_output (fuel : nat) (src : code)
        (clearTape : bool) (st : state) (i : Z) (stk : list Z)
        (P : list event) :
  Validate src = None ->
  Run fuel src clearTape (recontrol i stk P st) =
  match Run fuel src clearTape st with
  | Ok (e, st') => Ok (e, recontrol (index st') stk P st')
  | Panic p => Panic p
  | OutOfFuel => OutOfFuel
  end.
Proof.
  intros Hval. unfold Run. rewrite Hval.
  destruct src as [| c0 src'].
  { destruct fuel as [| fuel]; [reflexivity |]. cbn [Run_loop].
    rewrite !step_empty_source. reflexivity. }
  set (src := c0 :: src') in *.
  assert (Hstart : Run_start clearTape (recontrol i stk P st) =
                   relocate [] src stk P (Run_start clearTape st)).
  { unfold relocate. cbn [index Run_start set_index].
    rewrite enclosing_start. destruct clearTape; reflexivity. }
  rewrite Hstart.
  change (Run_loop fuel src (relocate [] src stk P (Run_start clearTape st)))
    with (Run_loop fuel ([] ++ src)
            (relocate [] src stk P (Run_start clearTape st))).
  rewrite (Run_loop_relocate [] src (loopStack (Run_start clearTape st))
             stk P Hval).
  - destruct (Run_loop fuel src (Run_start clearTape st)) as [st1 | p |]
      eqn:Hloop; cbn [bind lift]; [| reflexivity ..].
    destruct (Run_loop_end fuel src (Run_start clearTape st) st1 Hval
                eq_refl Hloop) as (_ & Hidx & _).
    do 2 f_equal. state_fields.
    + rewrite Hidx, (enclosing_finish src Hval). reflexivity.
    + rewrite <- app_assoc. reflexivity.
  - split; [cbn; subst src; rewrite len_cons; pose proof (len_nonneg src'); lia |].
    cbn [index Run_start set_index]. rewrite enclosing_start. reflexivity.
  - cbn. subst src. rewrite len_cons. pose proof (len_nonneg src'). lia.
Qed.

Lemma Run_ignores_index_stack_output_witness :
  Run 20 (src_of "+[>+.<-]") false
      (recontrol 7 [5; 9] [PrintChar 65] (mkState [0; 0] 0 0 [] [] [])) =
  Ok (None, mkState [0; 1] 0 8 [5; 9] []
                    [PrintChar 65; PrintChar 1; PrintLine EmptyString]).
Proof.
  rewrite (Run_ignores_index_stack_output 20 (src_of "+[>+.<-]") false
             (mkState [0; 0] 0 0 [] [] []) 7 [5; 9] [PrintChar 65] eq_refl).
  reflexivity.
Defined.

(** ** Two programs in a row *)

Lemma skip_loop_app (l r : code) :
  forall stk i j,
    skip_loop stk i l = Ok j -> skip_loop stk i (l ++ r) = Ok j.
Proof.
  induction l as [| d l IH]; intros stk i j; cbn [app skip_loop];
    [discriminate |].
  destruct (d =? "[")%char; [apply IH |].
  destruct (d =? "]")%char; [| apply IH].
  destruct (Stack.IsEmpty _); [auto | apply IH].
Qed.

(** An iteration inside [a] does the same in [a ++ b], as long as it is
    not a special instruction, whose text could run on into [b]. *)
Lemma dispatch_prefix (fuel : nat) (a b : code) (st st' : state) (c : ascii) :
  at_index a (index st) = Some c ->
  c <> "!"%char ->
  dispatch fuel a st = Ok st' ->
  dispatch fuel (a ++ b) st = Ok st'.
Proof.
  intros Hc Hbang. pose proof Hc as Hsplit.
  apply at_index_Some in Hsplit. destruct Hsplit as (pre & post & -> & Hidx).
  assert (Hc' : at_index ((pre ++ c :: post) ++ b) (index st) = Some c).
  { rewrite <- app_assoc. cbn [app]. rewrite Hidx. apply at_index_middle. }
  unfold dispatch. rewrite Hc, Hc'.
  repeat match goal with
         | |- context [if (c =? ?x)%char then _ else _] =>
             destruct (Ascii.eqb_spec c x); [first [exact id | idtac] |]
         end; try exact id; try congruence.
  subst c. rewrite Hidx, <- app_assoc. cbn [app].
  rewrite !drop_S_len_app.
  destruct (OpenLoop (len pre) st) as [[skip st1] | p |]; cbn [bind fst snd];
    try exact id.
  destruct skip; [| exact id].
  destruct (skip_loop _ _ post) as [j | p |] eqn:Hskip; cbn [bind];
    try discriminate.
  rewrite (skip_loop_app post b _ _ j Hskip). exact id.
Qed.

Lemma step_Ok_char (fuel : nat) (src : code) (st st' : state) :
  step fuel src st = Ok st' ->
  exists c st1,
    at_index src (index st) = Some c /\
    dispatch fuel src st = Ok st1 /\
    st' = set_index (index st1 + 1) st1.
Proof.
  unfold step. destruct (dispatch fuel src st) as [st1 | |] eqn:Hd;
    cbn [bind]; try discriminate.
  intros [= <-].
  destruct (at_index src (index st)) as [c |] eqn:Hc.
  - exists c, st1. auto.
  - unfold dispatch in Hd. rewrite Hc in Hd. discriminate.
Qed.

Lemma Run_loop_prefix (a b : code) (st1 : state) :
  "!"%char ∉ a ->
  b <> [] ->
  index st1 = len a ->
  forall fuel st g r,
    Run_loop fuel a st = Ok st1 ->
    Run_loop g (a ++ b) st1 = r ->
    r <> OutOfFuel ->
    Run_loop (fuel + g) (a ++ b) st = r.
Proof.
  intros Hbang Hb Hend.
  assert (Hlen : len a < len (a ++ b)).
  { rewrite len_app. destruct b; [congruence |]. rewrite len_cons.
    pose proof (len_nonneg b). lia. }
  induction fuel as [| fuel IH]; intros st g r Hrun Hr Hne; [discriminate |].
  cbn [Run_loop Nat.add] in Hrun |- *.
  destruct (step fuel a st) as [st2 | |] eqn:Hstep; cbn [bind] in Hrun;
    try discriminate.
  destruct (step_Ok_char _ _ _ _ Hstep) as (c & s & Hc & Hd & ->).
  assert (Hcb : c <> "!"%char).
  { intros ->. apply Hbang.
    apply at_index_Some in Hc. destruct Hc as (pre & post & -> & _).
    apply elem_of_app. right. apply elem_of_cons. left. reflexivity. }
  assert (Hstep' : step (fuel + g) (a ++ b) st =
                   Ok (set_index (index s + 1) s)).
  { apply (step_more_fuel fuel); [| discriminate | lia].
    unfold step. rewrite (dispatch_prefix fuel a b st s c Hc Hcb Hd).
    reflexivity. }
  rewrite Hstep'. cbn [bind].
  destruct (Z.geb_spec (index (set_index (index s + 1) s)) (len a))
    as [Hge | Hlt].
  - injection Hrun as <-.
    destruct (Z.geb_spec (index (set_index (index s + 1) s)) (len (a ++ b)))
      as [Hge' | _]; [lia |].
    apply (Run_loop_more_fuel (a ++ b) g); [exact Hr | exact Hne | lia].
  - destruct (Z.geb_spec (index (set_index (index s + 1) s)) (len (a ++ b)))
      as [Hge' | _]; [lia |].
    apply IH; assumption.
Qed.

(** X21: two programs in a row.  Let [Run] return [nil] on [a] and then,
    with the flag off, on [b], [a] holding no ["!"].  Then [Run] returns
    [nil] on [a ++ b] from the first state, with the final tape, pointer,
    loop stack and pending input of the second run; it prints what the two
    runs print, without the line break that ended the first. *)
Theorem Run_two_programs (fuel1 fuel2 : nat) (a b : code) (clearTape : bool)
        (st st1 st2 : state) :
  "!"%char ∉ a ->
  Run fuel1 a clearTape st = Ok (None, st1) ->
  Run fuel2 b false st1 = Ok (None, st2) ->
  exists st3 out1 out2,
    Run (fuel1 + fuel2) (a ++ b) clearTape st = Ok (None, st3) /\
    tape st3 = tape st2 /\
    pointer st3 = pointer st2 /\
    loopStack st3 = loopStack st2 /\
    input st3 = input st2 /\
    index st3 = len (a ++ b) /\
    output st1 = out1 ++ [PrintLine EmptyString] /\
    output st2 = output st1 ++ out2 ++ [PrintLine EmptyString] /\
    output st3 = out1 ++ out2 ++ [PrintLine EmptyString].
Proof.
  intros Hbang Hrun1 Hrun2. unfold Run in Hrun1, Hrun2.
  destruct (Validate a) as [e |] eqn:Hva; [discriminate |].
  destruct (Validate b) as [e |] eqn:Hvb; [discriminate |].
  destruct (Run_loop fuel1 a (Run_start clearTape st)) as [s1 | |] eqn:Hloop1;
    cbn [bind] in Hrun1; try discriminate.
  destruct (Run_loop fuel2 b (Run_start false st1)) as [s2 | |] eqn:Hloop2;
    cbn [bind] in Hrun2; try discriminate.
  injection Hrun1 as <-. injection Hrun2 as <-.
  destruct (Run_loop_end fuel1 a (Run_start clearTape st) s1 Hva eq_refl Hloop1)
    as (Hnea & Hidx1 & Hstk1).
  destruct (Run_loop_end fuel2 b (Run_start false (emit (PrintLine EmptyString) s1))
              s2 Hvb eq_refl Hloop2) as (Hneb & Hidx2 & Hstk2).
  (* the run of [b], seen from an engine with no history *)
  set (ref := mkState (tape s1) (pointer s1) 0 [] (input s1) []).
  assert (Hinv : Inv b [] ref).
  { split; [cbn [index ref]; pose proof (len_nonneg b); lia |].
    cbn [index loopStack ref]. rewrite enclosing_start. reflexivity. }
  assert (Hlt : index ref < len b).
  { cbn [index ref]. destruct b; [congruence |]. rewrite len_cons.
    pose proof (len_nonneg b). lia. }
  assert (Hfrom1 : Run_start false (emit (PrintLine EmptyString) s1) =
                   relocate [] b (loopStack s1)
                            (output s1 ++ [PrintLine EmptyString]) ref).
  { unfold ref.
    state_fields; rewrite ?enclosing_start, ?app_nil_r; reflexivity. }
  rewrite Hfrom1 in Hloop2.
  change (Run_loop fuel2 b) with (Run_loop fuel2 ([] ++ b)) in Hloop2.
  rewrite (Run_loop_relocate [] b [] _ _ Hvb fuel2 ref Hinv Hlt) in Hloop2.
  destruct (Run_loop fuel2 b ref) as [t | |] eqn:Href; cbn [lift] in Hloop2;
    try discriminate.
  injection Hloop2 as <-.
  destruct (Run_loop_end fuel2 b ref t Hvb eq_refl Href) as (_ & Hidxt & Hstkt).
  (* the same run, as the second part of [a ++ b] *)
  assert (Hfrom2 : s1 = relocate a b (loopStack s1) (output s1) ref).
  { unfold ref.
    state_fields; rewrite ?enclosing_start, ?app_nil_r; try reflexivity.
    lia. }
  pose proof (Run_loop_relocate a b [] (loopStack s1) (output s1) Hvb fuel2
                ref Hinv Hlt) as Hsecond.
  rewrite <- Hfrom2, Href in Hsecond. cbn [lift] in Hsecond.
  pose proof (Run_loop_prefix a b s1 Hbang Hneb Hidx1 fuel1
                (Run_start clearTape st) fuel2 _ Hloop1 Hsecond
                ltac:(discriminate)) as Hjoint.
  assert (Hvab : Validate (a ++ b) = None).
  { unfold Validate.
    rewrite (Validate_loop_Balanced a
               (Validate_loop_accepts (length a) a 0 (le_n _) Hva)).
    rewrite <- Hvb. apply Validate_loop_depth. reflexivity. }
  exists (emit (PrintLine EmptyString) (relocate a b (loopStack s1) (output s1) t)),
    (output s1), (output t).
  split; [unfold Run; rewrite Hvab, Hjoint; reflexivity |].
  cbn [tape pointer loopStack input index output emit relocate recontrol].
  rewrite Hidxt, (enclosing_finish b Hvb), len_app.
  repeat split; try reflexivity.
  - rewrite <- !app_assoc. reflexivity.
  - rewrite <- !app_assoc. reflexivity.
Qed.

Lemma Run_two_programs_witness :
  exists st3,
    Run 3 (src_of "++.") false (mkState [0] 0 0 [] [] []) = Ok (None, st3) /\
    tape st3 = [2] /\
    index st3 = 3.
Proof.
  assert (Hbang : "!"%char ∉ src_of "+").
  { intros [H | H]%elem_of_cons; [discriminate | inversion H]. }
  destruct (Run_two_programs 1 2 (src_of "+") (src_of "+.") false
              (mkState [0] 0 0 [] [] [])
              (mkState [1] 0 1 [] [] [PrintLine EmptyString])
              (mkState [2] 0 2 [] [] [PrintLine EmptyString; PrintChar 2;
                                      PrintLine EmptyString])
              Hbang eq_refl eq_refl)
    as (st3 & out1 & out2 & Hrun & Htape & _ & _ & _ & Hidx & _).
  exists st3. split; [exact Hrun | split; [exact Htape | exact Hidx]].
Defined.

(** The condition on ["!"] is needed: the text of a special instruction
    may be completed by the second program.  [!! prin] is no instruction,
    but joined to [t] it prints the window. *)
Example Run_two_programs_special_instruction :
  match Run 7 (src_of "!! prin") false (initial_state []) with
  | Ok (None, st1) =>
      match Run 1 (src_of "t") false st1,
            Run 20 (src_of "!! prin" ++ src_of "t") false (initial_state [])
      with
      | Ok (None, st2), Ok (None, st3) =>
          output st2 = [PrintLine EmptyString; PrintLine EmptyString] /\
          length (output st3) = 2%nat
      | _, _ => False
      end
  | _ => False
  end.
Proof. vm_compute. split; reflexivity. Qed.

(** The cases of [TestValidate]. *)
Example TestValidate :
  Validate (src_of "[") <> None /\
  Validate (src_of "]") <> None /\
  Validate (src_of "[]") = None /\
  Validate (src_of "[[[][[[]]]]]") = None /\
  Validate (src_of "[[[[[]]][][]]][]]]]]]][]]][[]") <> None.
Proof. repeat split; vm_compute; congruence. Qed.

(** ** The reset flag *)

Lemma map_const_length {A B : Type} (c : B) (l l' : list A) :
  length l = length l' ->
  map (fun _ => c) l = map (fun _ => c) l'.
Proof.
  revert l'. induction l as [| x l IH]; intros [| y l'] H;
    cbn in H |- *; try lia; [reflexivity |].
  f_equal. apply IH. lia.
Qed.

(** X22: with the reset flag a run of a validated source does not depend
    on what earlier runs left on the tape nor on where they left the
    pointer: two engines whose tapes have the same length, and that agree
    on loop stack, pending input and output, give the same result. *)
Theorem Run_with_reset_forgets_tape (fuel : nat) (src : code)
        (st st' : state) :
  Validate src = None ->
  length (tape st) = length (tape st') ->
  loopStack st = loopStack st' ->
  input st = input st' ->
  output st = output st' ->
  Run fuel src true st = Run fuel src true st'.
Proof.
  intros Hval Hlen Hstk Hin Hout. unfold Run. rewrite Hval.
  assert (Hstart : Run_start true st = Run_start true st').
  { apply state_ext;
      cbn [tape pointer index loopStack input output Run_start ClearTape
           set_index set_pointer set_tape];
      try assumption; try reflexivity.
    apply map_const_length. exact Hlen. }
  rewrite Hstart. reflexivity.
Qed.

Lemma Run_with_reset_forgets_tape_witness :
  Run 10 (src_of "+>+.") true (mkState [7; 200; 3] 2 5 [] [] []) =
  Run 10 (src_of "+>+.") true (mkState [0; 0; 0] 0 0 [] [] []).
Proof.
  exact (Run_with_reset_forgets_tape 10 (src_of "+>+.")
           (mkState [7; 200; 3] 2 5 [] [] []) (mkState [0; 0; 0] 0 0 [] [] [])
           eq_refl eq_refl eq_refl eq_refl eq_refl).
Defined.

(** ** The size of the loop stack *)

Lemma pending_from_length (l : code) :
  forall stk i,
    (length (pending_from stk i l) <=
     length stk + length (List.filter (Ascii.eqb "[") l))%nat.
Proof.
  induction l as [| c l IH]; intros stk i; [cbn; lia |].
  cbn [pending_from List.filter].
  rewrite (Ascii.eqb_sym "[" c).
  destruct (Ascii.eqb_spec c "["%char) as [-> | Hopen].
  - specialize (IH (i :: stk) (i + 1)). cbn [length] in IH |- *. lia.
  - destruct (c =? "]")%char.
    + specialize (IH (tail stk) (i + 1)).
      destruct stk; cbn [tail length] in IH |- *; lia.
    + apply IH.
Qed.

Lemma filter_take_length {A : Type} (f : A -> bool) (n : nat) (l : list A) :
  (length (List.filter f (take n l)) <= length (List.filter f l))%nat.
Proof.
  rewrite <- (take_drop n l) at 2.
  rewrite List.filter_app, length_app. lia.
Qed.

(** X23: the loop stack stays small.  During a run of a validated source
    it never holds more entries than it held before the run plus the number
    of ["["] in the source, however long the run lasts. *)
Theorem loopStack_is_bounded (src : code) (clearTape : bool)
        (st st1 : state) :
  Validate src = None ->
  Reach src (Run_start clearTape st) st1 ->
  (length (loopStack st1) <=
   length (loopStack st) + length (List.filter (Ascii.eqb "[") src))%nat.
Proof.
  intros Hval Hreach.
  assert (Hstk0 : loopStack (Run_start clearTape st) = loopStack st)
    by (destruct clearTape; reflexivity).
  destruct src as [| c0 src'].
  - assert (st1 = Run_start clearTape st) as ->.
    { destruct Hreach as [| s s' f _ Hstep _]; [reflexivity |].
      rewrite step_empty_source in Hstep. discriminate. }
    rewrite Hstk0. lia.
  - destruct (Reach_Inv (c0 :: src') (Run_start clearTape st) st1 Hval eq_refl
                ltac:(discriminate) Hreach) as [[_ Hstk] _].
    rewrite Hstk, Hstk0, length_app. unfold enclosing.
    pose proof (pending_from_length (take (Z.to_nat (index st1)) (c0 :: src'))
                  [] 0) as H1.
    pose proof (filter_take_length (Ascii.eqb "[") (Z.to_nat (index st1))
                  (c0 :: src')) as H2.
    cbn [length] in H1. lia.
Qed.

Lemma loopStack_is_bounded_witness :
  (length (loopStack (mkState [1%Z] 0%Z 2%Z [1%Z] [] [])) <=
   length (loopStack (mkState [0%Z] 0%Z 0%Z [] [] [])) +
   length (List.filter (Ascii.eqb "[") (src_of "+[-]")))%nat.
Proof.
  assert (Hreach : Reach (src_of "+[-]")
                     (Run_start false (mkState [0] 0 0 [] [] []))
                     (mkState [1] 0 2 [1] [] [])).
  { eapply (Reach_next _ _ (mkState [1] 0 1 [] [] []) _ 0%nat);
      [| reflexivity | reflexivity].
    eapply (Reach_next _ _ (mkState [0] 0 0 [] [] []) _ 0%nat);
      [| reflexivity | reflexivity].
    apply Reach_start. }
  exact (loopStack_is_bounded (src_of "+[-]") false
           (mkState [0] 0 0 [] [] []) (mkState [1] 0 2 [1] [] [])
           eq_refl Hreach).
Defined.

(** ** The size of the [printn] window *)


